(** * BART transit equity scripts: Census / LEHD fetch, filter and ratio pipeline

    A shallow embedding of the two data scripts that carry the
    repository's only shared logic,

      - [src/fetch_lehd_commute_data.py]   (module [Lehd]), and
      - [src/data/fetch_block_group_data.py] (module [BlockGroup]),

    together with the pandas / numpy operations they rely on: string
    slicing and [isin], boolean-mask selection, [int64] column sums,
    [float64] division, multiplication and [round], and [groupby].

    Conventions.
      - A DataFrame is the list of its rows, in index order; a column
        assignment [df['c'] = e] maps over the rows.
      - Identifier columns hold strings.  A cell of [h_geocode] may be
        missing (an empty field is read as NaN): it is [None], stays
        missing under [.str[:n]], is in no list and equal to nothing, and
        [groupby] drops its row.  A missing [w_geocode] or [TRACTCE] acts
        as the empty string everywhere the scripts use it (its prefix is
        on no allow-list, so the row is filtered out) and has no separate
        representation.
      - The count columns (LODES [S000], the ACS estimates) hold [int64]
        values.  Column sums and sums of columns wrap around modulo 2^64
        as numpy's do.
      - A [float64] is a finite rational, an infinity or not-a-number.
        Finite results are rounded to the nearest 53-bit significand, ties
        to even.  The exponent range is left unbounded (quotients of
        [int64] cells stay far inside the normal range) and zero carries
        no sign. *)

From Stdlib Require Import ZArith QArith Qround Qpower Lia Lqa.
From Stdlib Require Import String Ascii List Permutation Sorted.
From stdpp Require Import base list gmap strings.
Import ListNotations.

Local Open Scope string_scope.
Local Open Scope Z_scope.

(* ================================================================== *)
(** * Part I: definitions *)
(* ================================================================== *)

(** ** numpy [float64] *)
Module Float64.

Inductive float64 :=
| Fin (q : Q)
| Inf (negative : bool)
| NaN.

(** [binade a] is the exponent [e] with [2^e <= a < 2^(e+1)], for [0 < a]. *)
Definition binade (a : Q) : Z :=
  if Qle_bool 1 a then Z.log2 (Qfloor a) else - Z.log2_up (Qceiling (/ a)).

(** numpy's [rint]: nearest integer, halfway cases to the even one. *)
Definition rint (x : Q) : Z :=
  let f := Qfloor x in
  match (x - inject_Z f ?= 1 # 2)%Q with
  | Lt => f
  | Gt => f + 1
  | Eq => if Z.even f then f else f + 1
  end.

(** Rounding of a positive rational to a 53-bit significand. *)
Definition round_pos (a : Q) : Q :=
  let e := binade a in
  (inject_Z (rint (a * 2 ^ (52 - e))) * 2 ^ (e - 52))%Q.

(** Round to nearest [float64], ties to even. *)
Definition rnd64 (q : Q) : Q :=
  match (q ?= 0)%Q with
  | Eq => 0%Q
  | Gt => Qred (round_pos q)
  | Lt => Qred (- round_pos (- q))
  end.

(** Conversion of an [int64] cell, as in [int64 / int64] true division. *)
Definition of_int (z : Z) : float64 := Fin (rnd64 (inject_Z z)).

Definition is_neg (q : Q) : bool :=
  match (q ?= 0)%Q with Lt => true | _ => false end.

(** [x / y] on float64 arrays: no exception, IEEE special values. *)
Definition fdiv (x y : float64) : float64 :=
  match x, y with
  | NaN, _ | _, NaN => NaN
  | Inf _, Inf _ => NaN
  | Inf s, Fin b => Inf (xorb s (is_neg b))
  | Fin _, Inf _ => Fin 0
  | Fin a, Fin b =>
      match (b ?= 0)%Q with
      | Eq => match (a ?= 0)%Q with
              | Eq => NaN
              | Lt => Inf true
              | Gt => Inf false
              end
      | _ => Fin (rnd64 (a / b))
      end
  end.

(** [x * y]. *)
Definition fmul (x y : float64) : float64 :=
  match x, y with
  | NaN, _ | _, NaN => NaN
  | Inf s, Inf t => Inf (xorb s t)
  | Inf s, Fin b | Fin b, Inf s =>
      match (b ?= 0)%Q with
      | Eq => NaN
      | Lt => Inf (negb s)
      | Gt => Inf s
      end
  | Fin a, Fin b => Fin (rnd64 (a * b))
  end.

Definition frint (x : float64) : float64 :=
  match x with
  | Fin a => Fin (inject_Z (rint a))
  | other => other
  end.

(** [Series.round(2)]: numpy scales by [10**2], applies [rint] and
    divides by [10**2]. *)
Definition round2 (x : float64) : float64 :=
  fdiv (frint (fmul x (Fin 100))) (Fin 100).

(** What [n / 0] gives on [float64]: not-a-number for [0 / 0], else the
    infinity with the sign of [n]. *)
Definition zero_division (n : Z) : float64 :=
  match n ?= 0 with
  | Eq => NaN
  | Lt => Inf true
  | Gt => Inf false
  end.

(** The closed interval [[0, 100]]. *)
Definition in_pct_range (x : float64) : Prop :=
  match x with
  | Fin q => (0 <= q /\ q <= 100)%Q
  | _ => False
  end.

End Float64.
Export Float64.

(** ** numpy [int64] *)

Definition wrap64 (z : Z) : Z := (z + 2 ^ 63) mod 2 ^ 64 - 2 ^ 63.

(** The exact sum of a list of integers. *)
Definition Zsum (l : list Z) : Z := fold_right Z.add 0 l.

(** [Series.sum()] on an [int64] column. *)
Definition sum64 (l : list Z) : Z :=
  fold_left (fun acc x => wrap64 (acc + x)) l 0.

(** ** Strings: [s[:n]] and [Series.isin] *)

(** [s[:n]]: the first [n] characters, all of [s] when it is shorter. *)
Definition str_prefix (n : nat) (s : string) : string := String.substring 0 n s.

(** [Series.isin(values)] at one cell. *)
Definition isin (s : string) (values : list string) : bool :=
  existsb (String.eqb s) values.

(** ** The geographic filter

    Both scripts select rows the same way: truncate an identifier column
    to a fixed width, then keep the rows whose truncated identifier
    [isin] an allow-list. *)
Section GeographicFilter.
Context {row : Type}.
Variable ident : row -> string.
Variable width : nat.
Variable allow : list string.

Definition truncated (r : row) : string := str_prefix width (ident r).

Definition geo_filter (t : list row) : list row :=
  List.filter (fun r => isin (truncated r) allow) t.
End GeographicFilter.

(** ** [groupby(key)[col].sum()] *)

(** One row joins the running total of its group. *)
Definition group_add (m : gmap string Z) (kv : string * Z) : gmap string Z :=
  <[fst kv := wrap64 (default 0 (m !! fst kv) + snd kv)]> m.

Definition groupby_sum (kv : list (string * Z)) : gmap string Z :=
  fold_left group_add kv ∅.

(** [groupby] leaves out the rows whose key is missing ([dropna=True]). *)
Definition dropna (kv : list (option string * Z)) : list (string * Z) :=
  flat_map (fun p => match fst p with
                     | Some k => [(k, snd p)]
                     | None => []
                     end) kv.

(** [Series.sum()] of a grouped result. *)
Definition group_totals_sum (m : gmap string Z) : Z :=
  sum64 (map snd (map_to_list m)).

(** [sort_values(ascending=False)]: some reordering of the entries with
    the totals in descending order (the default sort is not stable, so the
    order among equal totals is not fixed). *)
Definition sort_values_desc (m : gmap string Z) (l : list (string * Z)) : Prop :=
  Permutation l (map_to_list m) /\
  StronglySorted (fun a b => snd b <= snd a) l.

(** ** [src/fetch_lehd_commute_data.py] *)
Module Lehd.

(** The columns of a LODES origin-destination file that the script uses. *)
Record od_row := { w_geocode : string; h_geocode : option string; S000 : Z }.

(** A row once [w_tract] is assigned (line 57). *)
Record job_row := { od : od_row; w_tract : string }.

(** A row once [h_tract] is assigned too (lines 92-93). *)
Record flow_row := { job : job_row; h_tract : option string }.

Definition berkeley_tracts : list string :=
  [ "06001400500"; "06001400700"; "06001421800"; "06001421900"; "06001422200";
    "06001422300"; "06001422400"; "06001422500"; "06001422800"; "06001422901";
    "06001423000"; "06001423100"; "06001423400"; "06001423500"; "06001423601";
    "06001423602"; "06001423901"; "06001423902"; "06001424001" ].

(** [chunk['w_tract'] = chunk['w_geocode'].str[:11]] *)
Definition assign_w_tract (chunk : list od_row) : list job_row :=
  map (fun r => {| od := r; w_tract := str_prefix 11 (w_geocode r) |}) chunk.

(** [berkeley_chunk = chunk[chunk['w_tract'].isin(berkeley_tracts)]] *)
Definition berkeley_chunk (chunk : list od_row) : list job_row :=
  List.filter (fun j => isin (w_tract j) berkeley_tracts) (assign_w_tract chunk).

(** What the chunked reader hands to the loop: a chunk, or an exception
    (connection, decompression or parse failure). *)
Inductive read_event :=
| Chunk (rows : list od_row)
| ReadError (e : string).

Inductive outcome (A : Type) :=
| Ok (a : A)
| Raised (e : string).
Arguments Ok {A} a.
Arguments Raised {A} e.

(** The [for chunk in pd.read_csv(...)] loop, with the list [chunks] it
    appends to. *)
Fixpoint read_loop (events : list read_event) (chunks : list (list job_row))
  : outcome (list (list job_row)) :=
  match events with
  | [] => Ok chunks
  | ReadError e :: _ => Raised e
  | Chunk c :: rest =>
      let b := berkeley_chunk c in
      read_loop rest (if (0 <? length b)%nat then chunks ++ [b] else chunks)
  end.

Inductive message :=
| FoundJobs (n : nat)        (* "Found {len(df):,} jobs located in Berkeley" *)
| NoBerkeleyJobs             (* "No Berkeley jobs found" *)
| Error (e : string)         (* "Error: {e}" *)
| FailedToFetch.             (* "Failed to fetch LEHD data" *)

(** [fetch_lodes(year)]: the returned frame ([None] as [None]) and what
    it prints after the reading is over. *)
Definition fetch_lodes (events : list read_event)
  : option (list job_row) * list message :=
  match read_loop events [] with
  | Ok [] => (None, [NoBerkeleyJobs])
  | Ok chunks =>
      let df := concat chunks in      (* pd.concat(chunks, ignore_index=True) *)
      (Some df, [FoundJobs (length df)])
  | Raised e => (None, [Error e])
  end.

(** The two ways the acquisition of a year comes back empty-handed: the
    reader raises, or no chunk has a row with a Berkeley workplace. *)
Definition acquisition_fails (events : list read_event) : Prop :=
  (exists e, In (ReadError e) events) \/
  (forall c, In (Chunk c) events -> berkeley_chunk c = []).

(** [df['h_tract'] = df['h_geocode'].str[:11]] *)
Definition assign_h_tract (df : list job_row) : list flow_row :=
  map (fun j => {| job := j;
                   h_tract := option_map (str_prefix 11) (h_geocode (od j)) |}) df.

Definition jobs (df : list flow_row) : list Z := map (fun r => S000 (od (job r))) df.

Record commute_stats := {
  year : string;
  total_jobs : Z;
  same_tract : Z;
  live_work_berkeley : Z;
  commute_in : Z;
  pct_commute_in : float64
}.

(** [df['h_tract'].isin(berkeley_tracts)] at one row. *)
Definition lives_in_berkeley (r : flow_row) : bool :=
  match h_tract r with
  | Some t => isin t berkeley_tracts
  | None => false
  end.

(** [df['h_tract'] == df['w_tract']] at one row. *)
Definition lives_in_work_tract (r : flow_row) : bool :=
  match h_tract r with
  | Some t => String.eqb t (w_tract (job r))
  | None => false
  end.

Definition analyze_commutes (df : list flow_row) (yr : string) : commute_stats :=
  let same_tract :=
    sum64 (jobs (List.filter lives_in_work_tract df)) in
  let live_work_berkeley := sum64 (jobs (List.filter lives_in_berkeley df)) in
  let commute_in := sum64 (jobs (List.filter (fun r => negb (lives_in_berkeley r)) df)) in
  let total := sum64 (jobs df) in
  {| year := yr;
     total_jobs := total;
     same_tract := same_tract;
     live_work_berkeley := live_work_berkeley;
     commute_in := commute_in;
     pct_commute_in :=
       if 0 <? total
       then fmul (fdiv (of_int commute_in) (of_int total)) (Fin 100)
       else Fin 0                      (* the Python int 0 *) |}.

(** [df['h_county'] = df['h_geocode'].str[:5]] *)
Definition h_county (r : flow_row) : option string :=
  option_map (str_prefix 5) (h_geocode (od (job r))).

(** The rows of one county. *)
Definition in_county (county : string) (r : flow_row) : bool :=
  match h_county r with
  | Some c => String.eqb c county
  | None => false
  end.

(** The rows that have a county. *)
Definition has_county (r : flow_row) : bool :=
  match h_county r with
  | Some _ => true
  | None => false
  end.

(** [df.groupby('h_county')['S000'].sum()] of [top_origins]. *)
Definition county_totals (df : list flow_row) : gmap string Z :=
  groupby_sum (dropna (map (fun r => (h_county r, S000 (od (job r)))) df)).

(** The run of the script, as far as the pipeline stages go: the exit
    status (0 when the script reaches its end), the messages of the
    acquisition stage, the two commute analyses, the county totals of
    [top_origins] and the frames handed to [to_csv].  The file system is
    not part of the model: the run is the one in which creating the
    directory and writing the two files succeed. *)
Record run := {
  exit_status : Z;
  log : list message;
  analysis : option (commute_stats * commute_stats);
  origins : option (gmap string Z * gmap string Z);
  written : list (string * list flow_row)
}.

Definition YEAR_PRE : string := "2019".
Definition YEAR_POST : string := "2021".

Definition main (lodes_pre lodes_post : list read_event) : run :=
  let '(df_2019, log_2019) := fetch_lodes lodes_pre in
  let '(df_2021, log_2021) := fetch_lodes lodes_post in
  match df_2019, df_2021 with
  | Some df_2019, Some df_2021 =>
      let berkeley_2019 := assign_h_tract df_2019 in
      let berkeley_2021 := assign_h_tract df_2021 in
      {| exit_status := 0;
         log := log_2019 ++ log_2021;
         analysis := Some (analyze_commutes berkeley_2019 YEAR_PRE,
                           analyze_commutes berkeley_2021 YEAR_POST);
         origins := Some (county_totals berkeley_2019, county_totals berkeley_2021);
         written := [ ("data/lehd/berkeley_jobs_2019.csv", berkeley_2019);
                      ("data/lehd/berkeley_jobs_2021.csv", berkeley_2021) ] |}
  | _, _ =>
      {| exit_status := 1;                                   (* exit(1) *)
         log := log_2019 ++ log_2021 ++ [FailedToFetch];
         analysis := None;
         origins := None;
         written := [] |}
  end.

(** The share of workers who live in Berkeley, as printed beside
    [live_work_berkeley] (line 140): this quotient has no guard. *)
Definition pct_live_work (s : commute_stats) : float64 :=
  fmul (fdiv (of_int (live_work_berkeley s)) (of_int (total_jobs s))) (Fin 100).

(** [commuters_lost = results_2019['commute_in'] - results_2021['commute_in']] *)
Definition commuters_lost (results_2019 results_2021 : commute_stats) : Z :=
  wrap64 (commute_in results_2019 - commute_in results_2021).

(** [int(x)] on a [float64]: the integer part, towards zero; not-a-number
    and the infinities raise. *)
Definition float_to_int (x : float64) : outcome Z :=
  match x with
  | Fin q => Ok (if Qle_bool 0 q then Qfloor q else Qceiling q)
  | Inf _ => Raised "OverflowError"
  | NaN => Raised "ValueError"
  end.

(** [transit_commuters_lost = int(commuters_lost * 0.13)] *)
Definition transit_commuters_lost (lost : Z) : outcome Z :=
  float_to_int (fmul (of_int lost) (Fin (rnd64 (13 # 100)))).

(** The [county_names] dictionary of [top_origins]. *)
Definition county_names : gmap string string :=
  list_to_map
    [ ("06001", "Alameda County (includes Berkeley)");
      ("06013", "Contra Costa County");
      ("06075", "San Francisco County");
      ("06081", "San Mateo County");
      ("06085", "Santa Clara County");
      ("06097", "Sonoma County");
      ("06095", "Solano County") ].

(** [county_names.get(county_code, f"County {county_code}")] *)
Definition county_label (county_code : string) : string :=
  default (String.append "County " county_code) (county_names !! county_code).

(** [pct = jobs / df['S000'].sum() * 100] *)
Definition county_share (df : list flow_row) (county_jobs : Z) : float64 :=
  fmul (fdiv (of_int county_jobs) (of_int (sum64 (jobs df)))) (Fin 100).

(** The lines [top_origins] prints, from the sorted totals:
    [county_totals.head(n)] with the label and the share of each county. *)
Definition top_origins_lines (df : list flow_row) (n : nat)
    (sorted_totals : list (string * Z)) : list (string * Z * float64) :=
  map (fun e => (county_label (fst e), snd e, county_share df (snd e)))
      (firstn n sorted_totals).

(** [sort_values(ascending=False)] as a function: insertion of each
    entry before the first one with a smaller total.  The order it gives
    to equal totals is the model's own; numpy's sort fixes none. *)
Fixpoint insert_desc (e : string * Z) (l : list (string * Z)) : list (string * Z) :=
  match l with
  | [] => [e]
  | x :: rest => if snd x <? snd e then e :: l else x :: insert_desc e rest
  end.

Definition sort_values (m : gmap string Z) : list (string * Z) :=
  fold_right insert_desc [] (map_to_list m).

(** What [top_origins(df, year, n)] prints: a line for each of the first
    [n] counties of the sorted totals. *)
Definition top_origins (df : list flow_row) (n : nat) : list (string * Z * float64) :=
  top_origins_lines df n (sort_values (county_totals df)).

End Lehd.

(** ** [src/data/fetch_block_group_data.py] *)
Module BlockGroup.

(** A block group of the ACS response, after [pd.to_numeric]. *)
Record acs_row := {
  GEOID : string;
  total_population : Z;
  college_grad_enrollment : Z;
  total_households : Z;
  no_vehicle_owner : Z;
  no_vehicle_renter : Z;
  in_labor_force : Z;
  unemployed : Z
}.

(** [(num / den * 100).round(2)] on two columns. *)
Definition pct (num den : float64) : float64 :=
  round2 (fmul (fdiv num den) (Fin 100)).

Definition ratio_pct (num den : Z) : float64 := pct (of_int num) (of_int den).

Definition student_population (r : acs_row) : Z := college_grad_enrollment r.
Definition pct_students (r : acs_row) : float64 :=
  ratio_pct (student_population r) (total_population r).

Definition households_no_vehicle (r : acs_row) : Z :=
  wrap64 (no_vehicle_owner r + no_vehicle_renter r).
Definition pct_no_vehicle (r : acs_row) : float64 :=
  ratio_pct (households_no_vehicle r) (total_households r).

Definition unemployment_rate (r : acs_row) : float64 :=
  ratio_pct (unemployed r) (in_labor_force r).

(** A block group of the TIGER shapefile (geometry left out). *)
Record tiger_row := { geoid : string; COUNTYFP : string; TRACTCE : string }.

(** A row of the merged frame: the demographics are missing when no
    ACS row has the block group's GEOID ([how='left']). *)
Record bg_row := { geo : tiger_row; demographics : option acs_row }.

(** A merged row once [tract_num] is assigned (line 115). *)
Record bg_tract_row := { bg : bg_row; tract_num : string }.

(** [bg_geo[bg_geo['COUNTYFP'] == '001']] *)
Definition alameda (bg_geo : list tiger_row) : list tiger_row :=
  List.filter (fun g => String.eqb (COUNTYFP g) "001") bg_geo.

(** [bg_geo.merge(df, on='GEOID', how='left')] *)
Definition merge_left (bg_geo : list tiger_row) (df : list acs_row) : list bg_row :=
  flat_map (fun g =>
    match List.filter (fun d => String.eqb (geoid g) (GEOID d)) df with
    | [] => [ {| geo := g; demographics := None |} ]
    | ds => map (fun d => {| geo := g; demographics := Some d |}) ds
    end) bg_geo.

Definition digit (n : nat) : ascii := ascii_of_nat (48 + n).

(** [f'{i:03d}'] for [i < 1000]. *)
Definition fmt_03d (i : nat) : string :=
  String (digit (i / 100))
    (String (digit (i / 10 mod 10)) (String (digit (i mod 10)) EmptyString)).

(** [[f'4{i:03d}' for i in range(220, 241)]] *)
Definition berkeley_tracts : list string :=
  map (fun i => String.append "4" (fmt_03d i)) (seq 220 21).

(** [bg_geo['tract_num'] = bg_geo['TRACTCE'].str[:4]] *)
Definition assign_tract_num (bg_geo : list bg_row) : list bg_tract_row :=
  map (fun b => {| bg := b; tract_num := str_prefix 4 (TRACTCE (geo b)) |}) bg_geo.

(** [berkeley_bg = bg_geo[bg_geo['tract_num'].isin(berkeley_tracts)]] *)
Definition berkeley_bg (bg_geo : list bg_row) : list bg_tract_row :=
  List.filter (fun b => isin (tract_num b) berkeley_tracts) (assign_tract_num bg_geo).

(** Lines 107-116: from the state's block groups and the ACS frame to
    the Berkeley block groups. *)
Definition berkeley_block_groups (bg_geo : list tiger_row) (df : list acs_row)
  : list bg_tract_row :=
  berkeley_bg (merge_left (alameda bg_geo) df).

End BlockGroup.

(** ** Tables used in the examples below *)
Module Examples.
Import Lehd BlockGroup.

(** The rows of the vehicle-ownership example: a tract, a denominator
    column and a numerator column. *)
Record tract_row := { tract : string; pop : Z; no_vehicle : Z }.

Definition tract_table : list tract_row :=
  [ {| tract := "06001400500"; pop := 100; no_vehicle := 20 |};
    {| tract := "06001999999"; pop := 50; no_vehicle := 10 |} ].

Definition tract_pct (r : tract_row) : float64 := ratio_pct (no_vehicle r) (pop r).

(** The LEHD chunk of the flow example. *)
Definition lehd_chunk : list od_row :=
  [ {| w_geocode := "06001400500001"; h_geocode := Some "06075012345001"; S000 := 5 |} ].

Definition flow (w h : string) (n : Z) : flow_row :=
  {| job := {| od := {| w_geocode := w; h_geocode := Some h; S000 := n |};
               w_tract := str_prefix 11 w |};
     h_tract := Some (str_prefix 11 h) |}.

(** A flow whose home geocode is missing. *)
Definition flow_without_home (w : string) (n : Z) : flow_row :=
  {| job := {| od := {| w_geocode := w; h_geocode := None; S000 := n |};
               w_tract := str_prefix 11 w |};
     h_tract := None |}.

(** Three jobs from San Francisco and four with no home geocode. *)
Definition flows_with_missing_home : list flow_row :=
  [ flow "060014005001000" "060750123450010" 3;
    flow_without_home "060014005001000" 4 ].

(** A chunk with a worker living in the workplace tract, one living in
    another Berkeley tract, one in Oakland, one in San Francisco, one
    with a workplace outside Berkeley and one with no home geocode. *)
Definition mixed_chunk : list od_row :=
  [ {| w_geocode := "060014005001000"; h_geocode := Some "060014005002000"; S000 := 3 |};
    {| w_geocode := "060014005001000"; h_geocode := Some "060014007001000"; S000 := 2 |};
    {| w_geocode := "060014007001000"; h_geocode := Some "060014001001000"; S000 := 4 |};
    {| w_geocode := "060014005001000"; h_geocode := Some "060750123450010"; S000 := 5 |};
    {| w_geocode := "060750123450010"; h_geocode := Some "060014005002000"; S000 := 7 |};
    {| w_geocode := "060014005001000"; h_geocode := None; S000 := 1 |} ].

(** Five flows of 2^62 jobs each into one Berkeley block: three from a
    Berkeley block, two from a San Francisco block. *)
Definition huge_flows : list flow_row :=
  [ flow "060014005001000" "060014007001000" (2 ^ 62);
    flow "060014005001000" "060014007001000" (2 ^ 62);
    flow "060014005001000" "060014007001000" (2 ^ 62);
    flow "060014005001000" "060750123450010" (2 ^ 62);
    flow "060014005001000" "060750123450010" (2 ^ 62) ].

Definition short_row : od_row :=
  {| w_geocode := "0600"; h_geocode := Some "06075012345001"; S000 := 1 |}.

Definition small_flows : list flow_row :=
  [ flow "060014005001000" "060014007001000" 3;
    flow "060014005001000" "060750123450010" 5;
    flow "060014007001000" "060130123450010" 2 ].

Definition small_flows_reordered : list flow_row :=
  [ flow "060014005001000" "060750123450010" 5;
    flow "060014005001000" "060014007001000" 3;
    flow "060014007001000" "060130123450010" 2 ].

Definition empty_block_group : acs_row :=
  {| GEOID := "060014220001"; total_population := 0; college_grad_enrollment := 0;
     total_households := 0; no_vehicle_owner := 0; no_vehicle_renter := 0;
     in_labor_force := 0; unemployed := 0 |}.

Definition some_block_group : acs_row :=
  {| GEOID := "060014220002"; total_population := 1200; college_grad_enrollment := 300;
     total_households := 480; no_vehicle_owner := 20; no_vehicle_renter := 100;
     in_labor_force := 700; unemployed := 35 |}.
End Examples.

(* ================================================================== *)
(** * Part II: properties *)
(* ================================================================== *)

Import Lehd BlockGroup Examples.

(** ** Rounding to [float64] *)

#[global] Instance rint_proper : Proper (Qeq ==> eq) rint.
Proof.
  intros x y Hxy. unfold rint. rewrite (Qfloor_comp _ _ Hxy).
  assert (H : (x - inject_Z (Qfloor y) == y - inject_Z (Qfloor y))%Q) by (rewrite Hxy; reflexivity).
  rewrite (Qcompare_comp _ _ H _ _ (Qeq_refl (1#2))). reflexivity.
Qed.

Lemma rint_bounds (x : Q) :
  (inject_Z (rint x) - (1#2) <= x /\ x <= inject_Z (rint x) + (1#2))%Q.
Proof.
  unfold rint. pose proof (Qfloor_le x) as Hlo. pose proof (Qlt_floor x) as Hhi.
  rewrite inject_Z_plus in Hhi. change (inject_Z 1) with 1%Q in *.
  destruct (Qcompare_spec (x - inject_Z (Qfloor x)) (1#2)) as [He|Hl|Hg].
  - destruct (Z.even (Qfloor x)); rewrite ?inject_Z_plus; change (inject_Z 1) with 1%Q; split; lra.
  - split; lra.
  - rewrite inject_Z_plus. change (inject_Z 1) with 1%Q. split; lra.
Qed.

Lemma rint_mono (x y : Q) : (x <= y)%Q -> (rint x <= rint y)%Z.
Proof.
  intros Hxy. destruct (Z.le_gt_cases (rint x) (rint y)) as [|Hgt]; [assumption|].
  destruct (rint_bounds x) as [Hx _]. destruct (rint_bounds y) as [_ Hy].
  assert (Hz : (inject_Z (rint y) + 1 <= inject_Z (rint x))%Q).
  { change 1%Q with (inject_Z 1). rewrite <- inject_Z_plus, <- Zle_Qle. lia. }
  assert (Heq : (x == y)%Q) by lra.
  rewrite Heq in Hgt. lia.
Qed.

Lemma rint_Z (z : Z) : rint (inject_Z z) = z.
Proof.
  unfold rint. rewrite Qfloor_Z.
  destruct (Qcompare_spec (inject_Z z - inject_Z z) (1#2)) as [He|Hl|Hg]; [lra|reflexivity|lra].
Qed.


Lemma pow2_pos (e : Z) : (0 < 2 ^ e)%Q.
Proof. apply Qpower_0_lt. reflexivity. Qed.

Lemma pow2_add (a b : Z) : (2 ^ (a + b) == 2 ^ a * 2 ^ b)%Q.
Proof. apply Qpower_plus. discriminate. Qed.

Lemma pow2_le (a b : Z) : (a <= b)%Z -> (2 ^ a <= 2 ^ b)%Q.
Proof. intros H. apply Qpower_le_compat_l; [assumption|discriminate]. Qed.

Lemma pow2_Z (n : Z) : (0 <= n)%Z -> (inject_Z (2 ^ n) == 2 ^ n)%Q.
Proof. intros H. apply (Zpower_Qpower 2 n H). Qed.

Lemma pow2_cancel (e k : Z) : (2 ^ (k - e) * 2 ^ (e - k) == 1)%Q.
Proof. rewrite <- pow2_add. replace (k - e + (e - k))%Z with 0%Z by lia. reflexivity. Qed.

Lemma binade_spec (a : Q) :
  (0 < a)%Q -> (2 ^ binade a <= a /\ a < 2 ^ (binade a + 1))%Q.
Proof.
  intros Ha. unfold binade. destruct (Qle_bool 1 a) eqn:E.
  - apply Qle_bool_iff in E.
    assert (Hf : (1 <= Qfloor a)%Z).
    { rewrite <- (Qfloor_Z 1). apply Qfloor_resp_le. exact E. }
    destruct (Z.log2_spec (Qfloor a)) as [Hlo Hhi]; [lia|].
    pose proof (Z.log2_nonneg (Qfloor a)) as Hnn.
    split.
    + rewrite <- pow2_Z by assumption.
      apply Qle_trans with (inject_Z (Qfloor a)); [|apply Qfloor_le].
      rewrite <- Zle_Qle. exact Hlo.
    + rewrite <- pow2_Z by lia.
      apply Qlt_le_trans with (inject_Z (Qfloor a + 1)); [apply Qlt_floor|].
      rewrite <- Zle_Qle. change (Z.succ (Z.log2 (Qfloor a))) with (Z.log2 (Qfloor a) + 1)%Z in Hhi. lia.
  - assert (Ha1 : (a < 1)%Q).
    { apply Qnot_le_lt. intros H. apply Qle_bool_iff in H. congruence. }
    assert (Hinv : (a * / a == 1)%Q).
    { apply Qmult_inv_r. intros H. rewrite H in Ha. discriminate. }
    assert (Hia : (1 < / a)%Q).
    { apply Qlt_shift_inv_l; [assumption|]. rewrite Qmult_1_l. exact Ha1. }
    set (c := Qceiling (/ a)).
    assert (Hc : (1 < c)%Z).
    { rewrite Zlt_Qlt. apply Qlt_le_trans with (/ a)%Q; [exact Hia|apply Qle_ceiling]. }
    destruct (Z.log2_up_spec c Hc) as [Hlo Hhi].
    pose proof (Z.log2_up_pos c Hc) as Hpos.
    split.
    + rewrite Qpower_opp. apply Qle_shift_inv_r; [apply pow2_pos|].
      rewrite <- Hinv. apply Qmult_le_l; [assumption|].
      apply Qle_trans with (inject_Z c); [apply Qle_ceiling|].
      rewrite <- pow2_Z by lia. rewrite <- Zle_Qle. exact Hhi.
    + replace (- Z.log2_up c + 1)%Z with (- (Z.pred (Z.log2_up c)))%Z by lia.
      rewrite Qpower_opp. apply Qlt_shift_inv_l; [apply pow2_pos|].
      rewrite <- Hinv. apply Qmult_lt_l; [assumption|].
      apply Qle_lt_trans with (inject_Z (c - 1)); [|apply Qceiling_lt].
      rewrite <- pow2_Z by lia. rewrite <- Zle_Qle. lia.
Qed.

#[global] Instance binade_proper : Proper (Qeq ==> eq) binade.
Proof.
  intros x y Hxy. unfold binade.
  assert (E : Qle_bool 1 x = Qle_bool 1 y).
  { apply eq_true_iff_eq. rewrite !Qle_bool_iff, Hxy. reflexivity. }
  rewrite E. rewrite (Qfloor_comp _ _ Hxy).
  assert (Hi : (/ x == / y)%Q) by (rewrite Hxy; reflexivity).
  rewrite (Qceiling_comp _ _ Hi). reflexivity.
Qed.

Lemma binade_mono (a b : Q) : (0 < a)%Q -> (a <= b)%Q -> (binade a <= binade b)%Z.
Proof.
  intros Ha Hab.
  assert (Hb : (0 < b)%Q) by lra.
  destruct (binade_spec a Ha) as [Hlo _]. destruct (binade_spec b Hb) as [_ Hhi].
  assert (H : (2 ^ binade a < 2 ^ (binade b + 1))%Q) by lra.
  apply Qpower_lt_compat_l_inv in H; [lia|reflexivity].
Qed.


Lemma mantissa_bounds (a : Q) :
  (0 < a)%Q ->
  (inject_Z (2 ^ 52) <= a * 2 ^ (52 - binade a) /\
   a * 2 ^ (52 - binade a) <= inject_Z (2 ^ 53))%Q.
Proof.
  intros Ha. destruct (binade_spec a Ha) as [Hlo Hhi].
  pose proof (pow2_pos (52 - binade a)) as Hp.
  rewrite !pow2_Z by lia. split.
  - replace 52%Z with (binade a + (52 - binade a))%Z at 1 by lia.
    rewrite (pow2_add (binade a) (52 - binade a)). apply Qmult_le_r; assumption.
  - replace 53%Z with (binade a + 1 + (52 - binade a))%Z by lia.
    rewrite (pow2_add (binade a + 1) (52 - binade a)). apply Qmult_le_r; [assumption|]. apply Qlt_le_weak. exact Hhi.
Qed.

Lemma round_pos_bounds (a : Q) :
  (0 < a)%Q -> (2 ^ binade a <= round_pos a /\ round_pos a <= 2 ^ (binade a + 1))%Q.
Proof.
  intros Ha. destruct (mantissa_bounds a Ha) as [Hlo Hhi].
  apply rint_mono in Hlo, Hhi. rewrite rint_Z in Hlo, Hhi.
  unfold round_pos. cbv zeta.
  pose proof (pow2_pos (binade a - 52)) as Hp.
  split.
  - replace (binade a) with (52 + (binade a - 52))%Z at 1 by lia.
    rewrite (pow2_add 52 (binade a - 52)), <- (pow2_Z 52) by lia.
    apply Qmult_le_r; [assumption|]. rewrite <- Zle_Qle. exact Hlo.
  - replace (binade a + 1)%Z with (53 + (binade a - 52))%Z by lia.
    rewrite (pow2_add 53 (binade a - 52)), <- (pow2_Z 53) by lia.
    apply Qmult_le_r; [assumption|]. rewrite <- Zle_Qle. exact Hhi.
Qed.

#[global] Instance round_pos_proper : Proper (Qeq ==> Qeq) round_pos.
Proof.
  intros x y Hxy. unfold round_pos. cbv zeta. rewrite (binade_proper _ _ Hxy).
  assert (H : (x * 2 ^ (52 - binade y) == y * 2 ^ (52 - binade y))%Q) by (rewrite Hxy; reflexivity).
  rewrite (rint_proper _ _ H). reflexivity.
Qed.

Lemma round_pos_mono (a b : Q) :
  (0 < a)%Q -> (a <= b)%Q -> (round_pos a <= round_pos b)%Q.
Proof.
  intros Ha Hab. assert (Hb : (0 < b)%Q) by lra.
  pose proof (binade_mono a b Ha Hab) as He.
  destruct (Z.eq_dec (binade a) (binade b)) as [Heq|Hne].
  - unfold round_pos. cbv zeta. rewrite Heq.
    apply Qmult_le_r; [apply pow2_pos|]. rewrite <- Zle_Qle. apply rint_mono.
    apply Qmult_le_r; [apply pow2_pos|assumption].
  - destruct (round_pos_bounds a Ha) as [_ Hup]. destruct (round_pos_bounds b Hb) as [Hlo _].
    apply Qle_trans with (2 ^ (binade a + 1))%Q; [assumption|].
    apply Qle_trans with (2 ^ binade b)%Q; [|assumption].
    apply pow2_le. lia.
Qed.

Lemma round_pos_gt0 (a : Q) : (0 < a)%Q -> (0 < round_pos a)%Q.
Proof.
  intros Ha. destruct (round_pos_bounds a Ha) as [Hlo _].
  apply Qlt_le_trans with (2 ^ binade a)%Q; [apply pow2_pos|assumption].
Qed.

#[global] Instance rnd64_proper : Proper (Qeq ==> eq) rnd64.
Proof.
  intros x y Hxy. unfold rnd64.
  rewrite (Qcompare_comp _ _ Hxy _ _ (Qeq_refl 0)).
  destruct (y ?= 0)%Q; [reflexivity| |]; apply Qred_complete; rewrite Hxy; reflexivity.
Qed.

Lemma rnd64_pos (q : Q) : (0 < q)%Q -> (rnd64 q == round_pos q)%Q.
Proof.
  intros H. unfold rnd64. destruct (Qcompare_spec q 0) as [E|L|G]; [lra|lra|apply Qred_correct].
Qed.

Lemma rnd64_neg (q : Q) : (q < 0)%Q -> (rnd64 q == - round_pos (- q))%Q.
Proof.
  intros H. unfold rnd64. destruct (Qcompare_spec q 0) as [E|L|G]; [lra|apply Qred_correct|lra].
Qed.

Lemma rnd64_zero (q : Q) : (q == 0)%Q -> rnd64 q = 0%Q.
Proof.
  intros H. unfold rnd64. destruct (Qcompare_spec q 0) as [E|L|G]; [reflexivity|lra|lra].
Qed.

Lemma rnd64_gt0 (q : Q) : (0 < q)%Q -> (0 < rnd64 q)%Q.
Proof. intros H. rewrite (rnd64_pos q H). apply round_pos_gt0. exact H. Qed.

Lemma rnd64_lt0 (q : Q) : (q < 0)%Q -> (rnd64 q < 0)%Q.
Proof.
  intros H. rewrite (rnd64_neg q H).
  assert (H' : (0 < - q)%Q) by lra. pose proof (round_pos_gt0 _ H'). lra.
Qed.

Lemma rnd64_mono (a b : Q) : (a <= b)%Q -> (rnd64 a <= rnd64 b)%Q.
Proof.
  intros Hab.
  destruct (Q_dec a 0) as [[Ha|Ha]|Ha], (Q_dec b 0) as [[Hb|Hb]|Hb].
  - rewrite (rnd64_neg a Ha), (rnd64_neg b Hb).
    assert (H : (round_pos (- b) <= round_pos (- a))%Q) by (apply round_pos_mono; lra). lra.
  - pose proof (rnd64_lt0 a Ha). pose proof (rnd64_gt0 b Hb). lra.
  - pose proof (rnd64_lt0 a Ha). rewrite (rnd64_zero b Hb). lra.
  - lra.
  - rewrite (rnd64_pos a Ha), (rnd64_pos b Hb). apply round_pos_mono; assumption.
  - lra.
  - lra.
  - rewrite (rnd64_zero a Ha). pose proof (rnd64_gt0 b Hb). lra.
  - rewrite (rnd64_zero a Ha), (rnd64_zero b Hb). lra.
Qed.

Lemma rnd64_between (lo hi : Z) (q : Q) :
  rnd64 (inject_Z lo) = inject_Z lo -> rnd64 (inject_Z hi) = inject_Z hi ->
  (inject_Z lo <= q)%Q -> (q <= inject_Z hi)%Q ->
  (inject_Z lo <= rnd64 q /\ rnd64 q <= inject_Z hi)%Q.
Proof.
  intros Hlo Hhi H1 H2. split.
  - rewrite <- Hlo. apply rnd64_mono. exact H1.
  - rewrite <- Hhi. apply rnd64_mono. exact H2.
Qed.

Lemma rnd64_of_int_sign (n : Z) :
  (rnd64 (inject_Z n) ?= 0)%Q = (n ?= 0).
Proof.
  destruct (Z.compare_spec n 0) as [E|L|G].
  - subst n. reflexivity.
  - apply Qlt_alt. apply rnd64_lt0. change 0%Q with (inject_Z 0). rewrite <- Zlt_Qlt. exact L.
  - apply Qgt_alt. apply rnd64_gt0. change 0%Q with (inject_Z 0). rewrite <- Zlt_Qlt. exact G.
Qed.

(** ** Ratios *)

Lemma fdiv_finite (a b : Q) :
  (0 < b)%Q -> fdiv (Fin a) (Fin b) = Fin (rnd64 (a / b)).
Proof.
  intros Hb. unfold fdiv. destruct (Qcompare_spec b 0) as [E|L|G]; [lra|lra|reflexivity].
Qed.

Lemma unit_quotient (a b : Q) :
  (0 <= a)%Q -> (a <= b)%Q -> (0 < b)%Q -> (0 <= rnd64 (a / b) /\ rnd64 (a / b) <= 1)%Q.
Proof.
  intros Ha Hab Hb. apply (rnd64_between 0 1); [reflexivity|reflexivity| |].
  - apply Qle_shift_div_l; [assumption|]. change (inject_Z 0) with 0%Q. lra.
  - apply Qle_shift_div_r; [assumption|]. change (inject_Z 1) with 1%Q. lra.
Qed.

Lemma times_100_range (q : Q) (hi : Z) :
  rnd64 (inject_Z (hi * 100)) = inject_Z (hi * 100) ->
  (0 <= q)%Q -> (q <= inject_Z hi)%Q ->
  (0 <= rnd64 (q * 100) /\ rnd64 (q * 100) <= inject_Z (hi * 100))%Q.
Proof.
  intros Hr H0 H1. apply (rnd64_between 0 (hi * 100)); [reflexivity|assumption| |].
  - change (inject_Z 0) with 0%Q. lra.
  - rewrite inject_Z_mult. change (inject_Z 100) with 100%Q. lra.
Qed.

(** [commute_in / total * 100], the unrounded percentage. *)
Lemma raw_pct_in_range (n d : Z) :
  0 <= n -> n <= d -> d <> 0 ->
  exists q, fmul (fdiv (of_int n) (of_int d)) (Fin 100) = Fin q /\ (0 <= q /\ q <= 100)%Q.
Proof.
  intros Hn Hnd Hd. unfold of_int.
  assert (Hb : (0 < rnd64 (inject_Z d))%Q).
  { apply rnd64_gt0. change 0%Q with (inject_Z 0). rewrite <- Zlt_Qlt. lia. }
  assert (Ha : (0 <= rnd64 (inject_Z n))%Q).
  { change 0%Q with (rnd64 (inject_Z 0)). apply rnd64_mono. rewrite <- Zle_Qle. exact Hn. }
  assert (Hab : (rnd64 (inject_Z n) <= rnd64 (inject_Z d))%Q).
  { apply rnd64_mono. rewrite <- Zle_Qle. exact Hnd. }
  rewrite (fdiv_finite _ _ Hb). cbn [fmul]. eexists. split; [reflexivity|].
  destruct (unit_quotient _ _ Ha Hab Hb) as [H0 H1].
  apply (times_100_range _ 1); [reflexivity|assumption|assumption].
Qed.

(** [round(2)] keeps a percentage inside [[0, 100]]. *)
Lemma round2_in_range (q : Q) :
  (0 <= q)%Q -> (q <= 100)%Q -> in_pct_range (round2 (Fin q)).
Proof.
  intros H0 H1. unfold round2. cbn [fmul frint].
  rewrite fdiv_finite by reflexivity. cbn [in_pct_range].
  destruct (times_100_range q 100) as [Hlo Hhi]; [reflexivity|assumption|assumption|].
  apply rint_mono in Hlo, Hhi. change 0%Q with (inject_Z 0) in Hlo. rewrite rint_Z in Hlo, Hhi.
  apply (rnd64_between 0 100); [reflexivity|reflexivity| |].
  - apply Qle_shift_div_l; [reflexivity|]. change (inject_Z 0 * 100)%Q with (inject_Z 0).
    rewrite <- Zle_Qle. exact Hlo.
  - apply Qle_shift_div_r; [reflexivity|]. change (inject_Z 100 * 100)%Q with (inject_Z (100 * 100)).
    rewrite <- Zle_Qle. exact Hhi.
Qed.

Lemma ratio_pct_in_range (n d : Z) :
  0 <= n -> n <= d -> d <> 0 -> in_pct_range (ratio_pct n d).
Proof.
  intros Hn Hnd Hd. unfold ratio_pct, pct.
  destruct (raw_pct_in_range n d Hn Hnd Hd) as (q & -> & H0 & H1).
  apply round2_in_range; assumption.
Qed.

Lemma ratio_pct_zero_denominator (n : Z) : ratio_pct n 0 = zero_division n.
Proof.
  unfold ratio_pct, pct, of_int, zero_division.
  change (rnd64 (inject_Z 0)) with 0%Q. cbn [fdiv].
  change (0 ?= 0)%Q with Eq. cbv iota. rewrite rnd64_of_int_sign.
  destruct (n ?= 0); reflexivity.
Qed.

(** ** [int64] sums *)

Lemma wrap64_small (z : Z) : - 2 ^ 63 <= z < 2 ^ 63 -> wrap64 z = z.
Proof. intros H. unfold wrap64. rewrite Z.mod_small; lia. Qed.

Lemma wrap64_range (z : Z) : - 2 ^ 63 <= wrap64 z < 2 ^ 63.
Proof. unfold wrap64. pose proof (Z.mod_pos_bound (z + 2 ^ 63) (2 ^ 64)). lia. Qed.

Lemma wrap64_add_l (a b : Z) : wrap64 (wrap64 a + b) = wrap64 (a + b).
Proof.
  unfold wrap64. f_equal.
  replace ((a + 2 ^ 63) mod 2 ^ 64 - 2 ^ 63 + b + 2 ^ 63)
    with ((a + 2 ^ 63) mod 2 ^ 64 + b) by lia.
  rewrite Zplus_mod_idemp_l. f_equal. lia.
Qed.

Lemma wrap64_add_r (a b : Z) : wrap64 (a + wrap64 b) = wrap64 (a + b).
Proof. rewrite (Z.add_comm a), wrap64_add_l. f_equal. lia. Qed.

Lemma wrap64_idem (a : Z) : wrap64 (wrap64 a) = wrap64 a.
Proof. apply wrap64_small, wrap64_range. Qed.

Lemma sum64_from (l : list Z) (a : Z) :
  fold_left (fun acc x => wrap64 (acc + x)) l (wrap64 a) = wrap64 (a + Zsum l).
Proof.
  revert a. induction l as [|x l IH]; intros a; cbn [fold_left Zsum fold_right].
  - f_equal. lia.
  - rewrite wrap64_add_l, IH. f_equal. unfold Zsum. lia.
Qed.

Lemma sum64_Zsum (l : list Z) : sum64 l = wrap64 (Zsum l).
Proof. unfold sum64. change 0 with (wrap64 0) at 1. rewrite sum64_from. reflexivity. Qed.

Lemma Zsum_app (l1 l2 : list Z) : Zsum (l1 ++ l2) = Zsum l1 + Zsum l2.
Proof. induction l1 as [|x l1 IH]; cbn; [reflexivity|]. unfold Zsum in *. cbn. lia. Qed.

Lemma Zsum_permutation (l1 l2 : list Z) : Permutation l1 l2 -> Zsum l1 = Zsum l2.
Proof.
  induction 1 as [|x l l' _ IH|x y l|l l' l'' _ IH1 _ IH2]; unfold Zsum in *; cbn; lia.
Qed.

Lemma Zsum_nonneg (l : list Z) : Forall (fun x => 0 <= x) l -> 0 <= Zsum l.
Proof. induction 1 as [|x l Hx _ IH]; unfold Zsum in *; cbn; lia. Qed.

(** A mask and its negation split a column's sum. *)
Lemma Zsum_partition {A} (f : A -> Z) (p : A -> bool) (l : list A) :
  Zsum (map f (List.filter p l)) + Zsum (map f (List.filter (fun r => negb (p r)) l))
  = Zsum (map f l).
Proof.
  induction l as [|x l IH]; [reflexivity|].
  cbn [List.filter map]. destruct (p x); cbn [negb map]; unfold Zsum in *; cbn; lia.
Qed.

Lemma Zsum_filter_le {A} (f : A -> Z) (p : A -> bool) (l : list A) :
  Forall (fun r => 0 <= f r) l ->
  0 <= Zsum (map f (List.filter p l)) /\ Zsum (map f (List.filter p l)) <= Zsum (map f l).
Proof.
  induction 1 as [|x l Hx _ IH]; [cbn; lia|].
  cbn [List.filter map]. destruct (p x); unfold Zsum in *; cbn; lia.
Qed.

(** ** Strings *)

Lemma isin_In (s : string) (values : list string) : isin s values = true <-> In s values.
Proof.
  unfold isin. rewrite existsb_exists. split.
  - intros (x & Hx & E). apply String.eqb_eq in E. subst. assumption.
  - intros H. exists s. split; [assumption|apply String.eqb_refl].
Qed.

Lemma substring_all (s : string) (n : nat) :
  (String.length s <= n)%nat -> String.substring 0 n s = s.
Proof.
  revert n. induction s as [|c s IH]; intros n H.
  - destruct n; reflexivity.
  - destruct n as [|n]; cbn in H; [lia|]. cbn. f_equal. apply IH. lia.
Qed.

Lemma str_prefix_short (n : nat) (s : string) :
  (String.length s <= n)%nat -> str_prefix n s = s.
Proof. apply substring_all. Qed.

Lemma str_prefix_length (n : nat) (s : string) :
  String.length (str_prefix n s) = Nat.min n (String.length s).
Proof.
  unfold str_prefix. revert n. induction s as [|c s IH]; intros [|n]; cbn; try reflexivity.
  rewrite IH. reflexivity.
Qed.

(** ** The geographic filter *)

Lemma filter_idempotent {A} (p : A -> bool) (l : list A) :
  List.filter p (List.filter p l) = List.filter p l.
Proof.
  induction l as [|x l IH]; [reflexivity|].
  cbn [List.filter]. destruct (p x) eqn:E; [|assumption].
  cbn [List.filter]. rewrite E, IH. reflexivity.
Qed.

Lemma filter_map_commute {A B} (f : A -> B) (p : B -> bool) (l : list A) :
  List.filter p (map f l) = map f (List.filter (fun x => p (f x)) l).
Proof.
  induction l as [|x l IH]; [reflexivity|].
  cbn [map List.filter]. destruct (p (f x)); cbn [map]; rewrite IH; reflexivity.
Qed.

Lemma geo_filter_In {row} (ident : row -> string) (width : nat) (allow : list string)
    (t : list row) (r : row) :
  In r (geo_filter ident width allow t) <-> In r t /\ In (truncated ident width r) allow.
Proof. unfold geo_filter. rewrite filter_In, isin_In. reflexivity. Qed.

Lemma geo_filter_length {row} (ident : row -> string) (width : nat) (allow : list string)
    (t : list row) :
  (length (geo_filter ident width allow t) <= length t)%nat.
Proof. apply List.filter_length_le. Qed.

(** The chunk filter of [fetch_lodes] is the geographic filter on
    [w_geocode], width 11. *)
Lemma berkeley_chunk_geo_filter (chunk : list od_row) :
  berkeley_chunk chunk
  = assign_w_tract (geo_filter w_geocode 11 Lehd.berkeley_tracts chunk).
Proof. unfold berkeley_chunk, assign_w_tract. apply filter_map_commute. Qed.

(** The block-group filter is the geographic filter on [TRACTCE], width 4. *)
Lemma berkeley_bg_geo_filter (bg_geo : list bg_row) :
  berkeley_bg bg_geo
  = assign_tract_num
      (geo_filter (fun b => TRACTCE (geo b)) 4 BlockGroup.berkeley_tracts bg_geo).
Proof. unfold berkeley_bg, assign_tract_num. apply filter_map_commute. Qed.

Lemma od_assign_w_tract (chunk : list od_row) : map od (assign_w_tract chunk) = chunk.
Proof.
  unfold assign_w_tract. rewrite map_map. cbn. apply map_id.
Qed.

Lemma bg_assign_tract_num (bg_geo : list bg_row) : map bg (assign_tract_num bg_geo) = bg_geo.
Proof.
  unfold assign_tract_num. rewrite map_map. cbn. apply map_id.
Qed.

Lemma berkeley_chunk_sound (chunk : list od_row) :
  (length (berkeley_chunk chunk) <= length chunk)%nat /\
  Forall (fun j => w_tract j = str_prefix 11 (w_geocode (od j)) /\
                   In (w_tract j) Lehd.berkeley_tracts)
         (berkeley_chunk chunk).
Proof.
  split.
  - unfold berkeley_chunk. etransitivity; [apply List.filter_length_le|].
    unfold assign_w_tract. rewrite length_map. reflexivity.
  - apply List.Forall_forall. intros j Hj. unfold berkeley_chunk in Hj.
    apply filter_In in Hj. destruct Hj as [Hin Hok]. apply isin_In in Hok.
    split; [|assumption].
    unfold assign_w_tract in Hin. apply in_map_iff in Hin.
    destruct Hin as (r & <- & _). reflexivity.
Qed.

Lemma berkeley_bg_sound (bg_geo : list bg_row) :
  (length (berkeley_bg bg_geo) <= length bg_geo)%nat /\
  Forall (fun b => tract_num b = str_prefix 4 (TRACTCE (geo (bg b))) /\
                   In (tract_num b) BlockGroup.berkeley_tracts)
         (berkeley_bg bg_geo).
Proof.
  split.
  - unfold berkeley_bg. etransitivity; [apply List.filter_length_le|].
    unfold assign_tract_num. rewrite length_map. reflexivity.
  - apply List.Forall_forall. intros b Hb. unfold berkeley_bg in Hb.
    apply filter_In in Hb. destruct Hb as [Hin Hok]. apply isin_In in Hok.
    split; [|assumption].
    unfold assign_tract_num in Hin. apply in_map_iff in Hin.
    destruct Hin as (r & <- & _). reflexivity.
Qed.

(** C1: a geographic filter returns no more rows than it is given, and
    the truncated identifier of every row it returns is an element of
    the allow-list (equal, character for character, to one of its
    entries).  This holds of the filter in general and of its two uses:
    the Berkeley tract filter on [w_geocode[:11]] and the block-group
    filter on [TRACTCE[:4]]. *)
Theorem geographic_filter_sound :
  (forall (row : Type) (ident : row -> string) (width : nat) (allow : list string)
          (t : list row),
      (length (geo_filter ident width allow t) <= length t)%nat /\
      Forall (fun r => In (truncated ident width r) allow)
             (geo_filter ident width allow t)) /\
  (forall chunk : list od_row,
      (length (berkeley_chunk chunk) <= length chunk)%nat /\
      Forall (fun j => w_tract j = str_prefix 11 (w_geocode (od j)) /\
                       In (w_tract j) Lehd.berkeley_tracts)
             (berkeley_chunk chunk)) /\
  (forall bg_geo : list bg_row,
      (length (berkeley_bg bg_geo) <= length bg_geo)%nat /\
      Forall (fun b => tract_num b = str_prefix 4 (TRACTCE (geo (bg b))) /\
                       In (tract_num b) BlockGroup.berkeley_tracts)
             (berkeley_bg bg_geo)).
Proof.
  split; [|split].
  - intros row ident width allow t. split; [apply geo_filter_length|].
    apply List.Forall_forall. intros r Hr. apply geo_filter_In in Hr. apply Hr.
  - apply berkeley_chunk_sound.
  - apply berkeley_bg_sound.
Qed.

(** C5: the geographic filter is idempotent.  Filtering the output of
    the filter again returns it unchanged; re-running the chunk filter of
    [fetch_lodes] (or the block-group filter) on the frame it produced
    reassigns the tract column and keeps every row. *)
Theorem geographic_filter_idempotent :
  (forall (row : Type) (ident : row -> string) (width : nat) (allow : list string)
          (t : list row),
      geo_filter ident width allow (geo_filter ident width allow t)
      = geo_filter ident width allow t) /\
  (forall chunk : list od_row,
      berkeley_chunk (map od (berkeley_chunk chunk)) = berkeley_chunk chunk) /\
  (forall bg_geo : list bg_row,
      berkeley_bg (map bg (berkeley_bg bg_geo)) = berkeley_bg bg_geo).
Proof.
  split; [|split].
  - intros. apply filter_idempotent.
  - intros chunk. rewrite !berkeley_chunk_geo_filter, od_assign_w_tract.
    unfold geo_filter. rewrite filter_idempotent. reflexivity.
  - intros bg_geo. rewrite !berkeley_bg_geo_filter, bg_assign_tract_num.
    unfold geo_filter. rewrite filter_idempotent. reflexivity.
Qed.

(** C8: an identifier shorter than the truncation width is left as it is
    by the truncation, and its row is kept exactly when the whole
    identifier is an element of the allow-list; a kept row is a row of the
    input, unmodified.  The width is arbitrary (11 for tracts, 5 for
    counties, 4 for the TRACTCE prefix). *)
Theorem short_identifier_policy {row : Type} (ident : row -> string) (width : nat)
    (allow : list string) (t : list row) (r : row) :
  (String.length (ident r) < width)%nat ->
  truncated ident width r = ident r /\
  (In r (geo_filter ident width allow t) <-> In r t /\ In (ident r) allow).
Proof.
  intros Hlen.
  assert (E : truncated ident width r = ident r).
  { unfold truncated. apply str_prefix_short. lia. }
  split; [exact E|]. rewrite geo_filter_In, E. reflexivity.
Qed.

Lemma short_identifier_policy_witness :
  truncated w_geocode 11 short_row = "0600" /\
  (In short_row (geo_filter w_geocode 11 ["0600"; "06001400500"] (short_row :: lehd_chunk))
   <-> In short_row (short_row :: lehd_chunk) /\ In "0600" ["0600"; "06001400500"]).
Proof.
  apply (short_identifier_policy w_geocode 11 ["0600"; "06001400500"]
           (short_row :: lehd_chunk) short_row).
  cbn. lia.
Defined.

Lemma lehd_tracts_width : Forall (fun s => String.length s = 11%nat) Lehd.berkeley_tracts.
Proof. repeat constructor. Qed.

Lemma block_group_tracts_width :
  Forall (fun s => String.length s = 4%nat) BlockGroup.berkeley_tracts.
Proof. repeat constructor. Qed.

(** X15: Every Berkeley tract of the LEHD script has eleven characters, so
    the chunk filter rejects every row whose workplace geocode is shorter. *)
Lemma lehd_short_geocode_rejected (chunk : list od_row) :
  Forall (fun j => (11 <= String.length (w_geocode (od j)))%nat) (berkeley_chunk chunk).
Proof.
  destruct (berkeley_chunk_sound chunk) as [_ H].
  rewrite List.Forall_forall in *. intros j Hj. destruct (H j Hj) as [E Hin].
  pose proof (proj1 (List.Forall_forall _ _) lehd_tracts_width _ Hin) as Hlen.
  cbv beta in Hlen. rewrite E, str_prefix_length in Hlen. lia.
Qed.

(** X16: Every entry of the block-group allow-list has four characters, so
    the block-group filter rejects every row whose TRACTCE is shorter. *)
Lemma block_group_short_tractce_rejected (bg_geo : list bg_row) :
  Forall (fun b => (4 <= String.length (TRACTCE (geo (bg b))))%nat) (berkeley_bg bg_geo).
Proof.
  destruct (berkeley_bg_sound bg_geo) as [_ H].
  rewrite List.Forall_forall in *. intros b Hb. destruct (H b Hb) as [E Hin].
  pose proof (proj1 (List.Forall_forall _ _) block_group_tracts_width _ Hin) as Hlen.
  cbv beta in Hlen. rewrite E, str_prefix_length in Hlen. lia.
Qed.

(** A home geocode shorter than five characters is its own county key. *)
Lemma h_county_short (r : flow_row) (home : string) :
  h_geocode (od (job r)) = Some home -> (String.length home < 5)%nat ->
  h_county r = Some home.
Proof.
  intros E H. unfold h_county. rewrite E. cbn. f_equal. apply str_prefix_short. lia.
Qed.

(** ** Chunked reading *)

Lemma read_loop_chunks (chunks : list (list od_row)) (acc : list (list job_row)) :
  read_loop (map Chunk chunks) acc
  = Ok (acc ++ List.filter (fun b => (0 <? length b)%nat) (map berkeley_chunk chunks))%list.
Proof.
  revert acc. induction chunks as [|c chunks IH]; intros acc.
  - cbn. rewrite app_nil_r. reflexivity.
  - cbn [map read_loop List.filter]. rewrite IH.
    destruct (0 <? length (berkeley_chunk c))%nat; [|reflexivity].
    rewrite <- app_assoc. reflexivity.
Qed.

Lemma concat_nonempty {A} (L : list (list A)) :
  concat (List.filter (fun b => (0 <? length b)%nat) L) = concat L.
Proof.
  induction L as [|b L IH]; [reflexivity|].
  destruct b as [|x b]; simpl.
  - exact IH.
  - rewrite IH. reflexivity.
Qed.

Lemma filter_nonempty_head {A} (L : list (list A)) b bs :
  List.filter (fun b => (0 <? length b)%nat) L = b :: bs -> b <> [].
Proof.
  intros H E. assert (Hin : In b (b :: bs)) by (left; reflexivity).
  rewrite <- H in Hin. apply filter_In in Hin. destruct Hin as [_ Hlen].
  subst b. discriminate.
Qed.

Lemma berkeley_chunk_concat (chunks : list (list od_row)) :
  berkeley_chunk (concat chunks) = concat (map berkeley_chunk chunks).
Proof.
  induction chunks as [|c chunks IH]; [reflexivity|].
  cbn [concat map]. rewrite <- IH. unfold berkeley_chunk, assign_w_tract.
  rewrite map_app, List.filter_app. reflexivity.
Qed.

(** C7: consuming the file chunk by chunk gives what filtering the whole
    table gives.  For every list of chunks, [fetch_lodes] returns the
    rows, in order, that the Berkeley filter keeps of the concatenated
    chunks ([None] when it keeps none).  The one-row chunk of the flow
    example is kept, and its [S000] column sums to 5. *)
Theorem chunked_fetch_is_whole_table_filter (chunks : list (list od_row)) :
  fst (fetch_lodes (map Chunk chunks))
  = match berkeley_chunk (concat chunks) with
    | [] => None
    | df => Some df
    end
  /\ fst (fetch_lodes [Chunk lehd_chunk])
     = Some [ {| od := {| w_geocode := "06001400500001";
                          h_geocode := Some "06075012345001";
                          S000 := 5 |};
                 w_tract := "06001400500" |} ]
  /\ option_map (fun df => sum64 (jobs (assign_h_tract df)))
                (fst (fetch_lodes [Chunk lehd_chunk])) = Some 5.
Proof.
  split; [|split; reflexivity].
  unfold fetch_lodes. rewrite read_loop_chunks, app_nil_l.
  rewrite berkeley_chunk_concat, <- (concat_nonempty (map berkeley_chunk chunks)).
  destruct (List.filter _ (map berkeley_chunk chunks)) as [|b bs] eqn:E; [reflexivity|].
  apply filter_nonempty_head in E. cbn [fst concat].
  destruct b as [|j b]; [congruence|reflexivity].
Qed.

(** ** Failure of the acquisition stage *)

Lemma read_loop_raised (events : list read_event) (acc : list (list job_row)) (e : string) :
  read_loop events acc = Raised e -> In (ReadError e) events.
Proof.
  revert acc. induction events as [|ev events IH]; intros acc H; [discriminate|].
  destruct ev as [c|e']; cbn [read_loop] in H.
  - right. eapply IH. exact H.
  - left. congruence.
Qed.

Lemma read_loop_no_chunks (events : list read_event) (acc : list (list job_row)) :
  read_loop events acc = Ok [] ->
  acc = [] /\ forall c, In (Chunk c) events -> berkeley_chunk c = [].
Proof.
  revert acc. induction events as [|ev events IH]; intros acc H.
  - cbn in H. split; [congruence|]. intros c [].
  - destruct ev as [c|e]; cbn [read_loop] in H; [|discriminate].
    apply IH in H. destruct H as [Hacc Hall].
    destruct (berkeley_chunk c) as [|j b] eqn:E; cbn in Hacc.
    + split; [assumption|]. intros c' [Hc|Hc]; [congruence|auto].
    + destruct acc; discriminate.
Qed.

Lemma read_loop_error (events : list read_event) (acc : list (list job_row)) (e : string) :
  In (ReadError e) events -> exists e', read_loop events acc = Raised e'.
Proof.
  revert acc. induction events as [|ev events IH]; intros acc H; [destruct H|].
  destruct ev as [c|e']; cbn [read_loop]; [|eauto].
  destruct H as [H|H]; [discriminate|]. apply IH. assumption.
Qed.

Lemma read_loop_nothing_kept (events : list read_event) (acc : list (list job_row)) :
  (forall c, In (Chunk c) events -> berkeley_chunk c = []) ->
  read_loop events acc = Ok acc \/ exists e, read_loop events acc = Raised e.
Proof.
  revert acc. induction events as [|ev events IH]; intros acc H; [left; reflexivity|].
  destruct ev as [c|e]; cbn [read_loop]; [|right; eauto].
  rewrite (H c (or_introl eq_refl)). cbn. apply IH.
  intros c' Hc'. apply H. right. assumption.
Qed.

Lemma read_loop_failing (events : list read_event) (acc : list (list job_row)) :
  acquisition_fails events ->
  read_loop events acc = Ok acc \/ exists e, read_loop events acc = Raised e.
Proof.
  intros [[e He]|Hall].
  - right. eapply read_loop_error. exact He.
  - apply read_loop_nothing_kept. assumption.
Qed.

(** [fetch_lodes] returns [None] exactly when the acquisition fails. *)
Lemma fetch_lodes_None_iff (events : list read_event) :
  fst (fetch_lodes events) = None <-> acquisition_fails events.
Proof.
  unfold fetch_lodes. split.
  - destruct (read_loop events []) as [[|b bs]|e] eqn:E; cbn [fst]; intros H.
    + right. apply read_loop_no_chunks in E. apply E.
    + discriminate.
    + left. exists e. eapply read_loop_raised. exact E.
  - intros Hf. destruct (read_loop_failing events [] Hf) as [->|[e ->]]; reflexivity.
Qed.

(** C9: when the acquisition of either year fails (the reader raised, or
    no chunk had a row with a Berkeley workplace), the script prints
    "Failed to fetch LEHD data" and exits with status 1; no commute
    analysis, no county totals and no output file are produced. *)
Theorem failed_acquisition_aborts (lodes_pre lodes_post : list read_event) :
  acquisition_fails lodes_pre \/ acquisition_fails lodes_post ->
  exit_status (main lodes_pre lodes_post) = 1 /\
  In FailedToFetch (log (main lodes_pre lodes_post)) /\
  analysis (main lodes_pre lodes_post) = None /\
  origins (main lodes_pre lodes_post) = None /\
  written (main lodes_pre lodes_post) = [].
Proof.
  intros H. rewrite <- !fetch_lodes_None_iff in H. unfold main.
  destruct (fetch_lodes lodes_pre) as [d1 l1], (fetch_lodes lodes_post) as [d2 l2].
  cbn [fst] in H.
  assert (Hlog : In FailedToFetch (l1 ++ l2 ++ [FailedToFetch])%list).
  { rewrite !in_app_iff. right. right. left. reflexivity. }
  destruct d1 as [df1|], d2 as [df2|]; cbn; try (repeat split; (reflexivity || assumption)).
  destruct H; discriminate.
Qed.

Lemma failed_acquisition_aborts_witness :
  exit_status (main [ReadError "HTTP Error 404: Not Found"] [Chunk lehd_chunk]) = 1 /\
  In FailedToFetch (log (main [ReadError "HTTP Error 404: Not Found"] [Chunk lehd_chunk])) /\
  analysis (main [ReadError "HTTP Error 404: Not Found"] [Chunk lehd_chunk]) = None /\
  origins (main [ReadError "HTTP Error 404: Not Found"] [Chunk lehd_chunk]) = None /\
  written (main [ReadError "HTTP Error 404: Not Found"] [Chunk lehd_chunk]) = [].
Proof.
  apply (failed_acquisition_aborts [ReadError "HTTP Error 404: Not Found"] [Chunk lehd_chunk]).
  left. left. exists "HTTP Error 404: Not Found". left. reflexivity.
Defined.

(** ** The ratio fields *)

(** C3: whenever numerator and denominator are non-negative, the
    numerator is at most the denominator and the denominator is not
    zero, the percentage computed from them is a finite number in
    [[0, 100]]: the three block-group percentages (rounded to two
    decimals) and [pct_commute_in]. *)
Theorem ratio_fields_in_range (r : acs_row) (df : list flow_row) (yr : string) :
  (0 <= student_population r <= total_population r -> total_population r <> 0 ->
   in_pct_range (pct_students r)) /\
  (0 <= households_no_vehicle r <= total_households r -> total_households r <> 0 ->
   in_pct_range (pct_no_vehicle r)) /\
  (0 <= unemployed r <= in_labor_force r -> in_labor_force r <> 0 ->
   in_pct_range (unemployment_rate r)) /\
  (0 <= commute_in (analyze_commutes df yr) <= total_jobs (analyze_commutes df yr) ->
   total_jobs (analyze_commutes df yr) <> 0 ->
   in_pct_range (pct_commute_in (analyze_commutes df yr))).
Proof.
  repeat split; intros [H0 H1] Hd;
    try (apply ratio_pct_in_range; assumption).
  cbn [pct_commute_in commute_in total_jobs analyze_commutes] in *.
  destruct (Z.ltb_spec 0 (sum64 (jobs df))) as [Hpos|Hneg]; [|lia].
  destruct (raw_pct_in_range _ _ H0 H1 Hd) as (q & -> & Hq). exact Hq.
Qed.

Lemma ratio_fields_in_range_witness :
  in_pct_range (pct_students some_block_group) /\
  in_pct_range (pct_no_vehicle some_block_group) /\
  in_pct_range (unemployment_rate some_block_group) /\
  in_pct_range (pct_commute_in (analyze_commutes small_flows YEAR_PRE)).
Proof.
  destruct (ratio_fields_in_range some_block_group small_flows YEAR_PRE)
    as (H1 & H2 & H3 & H4).
  split; [|split; [|split]].
  - apply H1; vm_compute; [split|]; discriminate.
  - apply H2; vm_compute; [split|]; discriminate.
  - apply H3; vm_compute; [split|]; discriminate.
  - apply H4; vm_compute; [split|]; discriminate.
Defined.

(** C2, as stated, fails: the ratios do not share one zero-denominator
    value.  For a block group with no population, [pct_students] is
    not-a-number, while [pct_commute_in] of a table with no jobs is 0. *)
Lemma no_common_zero_denominator_sentinel :
  total_population empty_block_group = 0 /\
  pct_students empty_block_group = NaN /\
  total_jobs (analyze_commutes [] YEAR_PRE) = 0 /\
  pct_commute_in (analyze_commutes [] YEAR_PRE) = Fin 0 /\
  ~ (exists sentinel : float64,
       forall (r : acs_row) (df : list flow_row) (yr : string),
         (total_population r = 0 -> pct_students r = sentinel) /\
         (total_households r = 0 -> pct_no_vehicle r = sentinel) /\
         (in_labor_force r = 0 -> unemployment_rate r = sentinel) /\
         (total_jobs (analyze_commutes df yr) = 0 ->
          pct_commute_in (analyze_commutes df yr) = sentinel)).
Proof.
  split; [reflexivity|]. split; [reflexivity|]. split; [reflexivity|].
  split; [reflexivity|].
  intros [sentinel H].
  destruct (H empty_block_group [] YEAR_PRE) as (Hs & _ & _ & Hc).
  specialize (Hs eq_refl). specialize (Hc eq_refl).
  assert (E : pct_students empty_block_group = NaN) by reflexivity.
  assert (E' : pct_commute_in (analyze_commutes [] YEAR_PRE) = Fin 0) by reflexivity.
  congruence.
Qed.

(** C2, amended: no ratio raises on a zero denominator, and each has a
    defined result.  The three block-group percentages give what
    [float64] division gives (not-a-number when the numerator is zero
    too, otherwise the infinity with the numerator's sign);
    [pct_commute_in] gives 0. *)
Theorem zero_denominator_results (r : acs_row) (df : list flow_row) (yr : string) :
  (total_population r = 0 ->
   pct_students r = zero_division (student_population r)) /\
  (total_households r = 0 ->
   pct_no_vehicle r = zero_division (households_no_vehicle r)) /\
  (in_labor_force r = 0 ->
   unemployment_rate r = zero_division (unemployed r)) /\
  (total_jobs (analyze_commutes df yr) = 0 ->
   pct_commute_in (analyze_commutes df yr) = Fin 0).
Proof.
  unfold pct_students, pct_no_vehicle, unemployment_rate.
  repeat split; intros H.
  - rewrite H. apply ratio_pct_zero_denominator.
  - rewrite H. apply ratio_pct_zero_denominator.
  - rewrite H. apply ratio_pct_zero_denominator.
  - cbn [pct_commute_in total_jobs analyze_commutes] in *. rewrite H. reflexivity.
Qed.

Lemma zero_denominator_results_witness :
  pct_students empty_block_group = NaN /\
  pct_no_vehicle empty_block_group = NaN /\
  unemployment_rate empty_block_group = NaN /\
  pct_commute_in (analyze_commutes [] YEAR_PRE) = Fin 0.
Proof.
  destruct (zero_denominator_results empty_block_group [] YEAR_PRE)
    as (H1 & H2 & H3 & H4).
  split; [|split; [|split]].
  - apply H1. reflexivity.
  - apply H2. reflexivity.
  - apply H3. reflexivity.
  - apply H4. reflexivity.
Defined.

(** C4: on the two tract rows of the example and the allow-list
    ["06001400500"], the geographic filter keeps exactly the first row,
    and its percentage of households without a vehicle is 20.0: as
    [no_vehicle / pop * 100], rounded to two decimals or not, and whether
    the percentage is computed after the filter or, as the script does,
    before it. *)
Theorem vehicle_example :
  geo_filter tract 11 ["06001400500"] tract_table
  = [ {| tract := "06001400500"; pop := 100; no_vehicle := 20 |} ] /\
  map tract_pct (geo_filter tract 11 ["06001400500"] tract_table) = [Fin 20] /\
  map (fun r => fmul (fdiv (of_int (no_vehicle r)) (of_int (pop r))) (Fin 100))
      (geo_filter tract 11 ["06001400500"] tract_table) = [Fin 20] /\
  map snd (geo_filter (fun x => tract (fst x)) 11 ["06001400500"]
             (map (fun r => (r, tract_pct r)) tract_table)) = [Fin 20].
Proof. repeat split; vm_compute; reflexivity. Qed.

(** ** [analyze_commutes] *)

(** X8: The residents' and the commuters' jobs add up to the total, in
    [int64] arithmetic, for every table. *)
Lemma commute_split_int64 (df : list flow_row) (yr : string) :
  wrap64 (live_work_berkeley (analyze_commutes df yr) + commute_in (analyze_commutes df yr))
  = total_jobs (analyze_commutes df yr).
Proof.
  cbn [live_work_berkeley commute_in total_jobs analyze_commutes].
  rewrite !sum64_Zsum, wrap64_add_l, wrap64_add_r. unfold jobs.
  rewrite Zsum_partition. reflexivity.
Qed.

(** Below 2^63 the column sums are the exact sums. *)
Lemma sum64_exact_filter (p : flow_row -> bool) (df : list flow_row) :
  Forall (fun r => 0 <= S000 (od (job r))) df -> Zsum (jobs df) < 2 ^ 63 ->
  sum64 (jobs (List.filter p df)) = Zsum (jobs (List.filter p df)) /\
  0 <= Zsum (jobs (List.filter p df)) <= Zsum (jobs df).
Proof.
  intros Hnn Hlt. unfold jobs in *.
  pose proof (Zsum_filter_le (fun r => S000 (od (job r))) p df Hnn) as [H0 H1].
  split; [|lia]. rewrite sum64_Zsum. apply wrap64_small. lia.
Qed.

Lemma sum64_exact (df : list flow_row) :
  Forall (fun r => 0 <= S000 (od (job r))) df -> Zsum (jobs df) < 2 ^ 63 ->
  sum64 (jobs df) = Zsum (jobs df).
Proof.
  intros Hnn Hlt. rewrite sum64_Zsum. apply wrap64_small. split; [|assumption].
  unfold jobs. pose proof (Zsum_nonneg (map (fun r => S000 (od (job r))) df)) as H.
  rewrite Forall_map in H. specialize (H Hnn). lia.
Qed.

(** C10, as stated, fails when the [int64] sums wrap around: five flows
    of 2^62 jobs have a positive [total_jobs], a [commute_in] of -2^63
    and a [pct_commute_in] of -200. *)
Lemma commute_share_wraps :
  Forall (fun r => 0 <= S000 (od (job r))) huge_flows /\
  total_jobs (analyze_commutes huge_flows YEAR_PRE) = 2 ^ 62 /\
  live_work_berkeley (analyze_commutes huge_flows YEAR_PRE) = - 2 ^ 62 /\
  commute_in (analyze_commutes huge_flows YEAR_PRE) = - 2 ^ 63 /\
  pct_commute_in (analyze_commutes huge_flows YEAR_PRE) = Fin (-200) /\
  ~ (forall (df : list flow_row) (yr : string),
       Forall (fun r => 0 <= S000 (od (job r))) df ->
       live_work_berkeley (analyze_commutes df yr) + commute_in (analyze_commutes df yr)
       = total_jobs (analyze_commutes df yr) /\
       (0 < total_jobs (analyze_commutes df yr) ->
        in_pct_range (pct_commute_in (analyze_commutes df yr)))).
Proof.
  assert (Hnn : Forall (fun r => 0 <= S000 (od (job r))) huge_flows).
  { repeat constructor; discriminate. }
  split; [exact Hnn|]. split; [reflexivity|]. split; [reflexivity|].
  split; [reflexivity|]. split; [reflexivity|].
  intros H. destruct (H huge_flows YEAR_PRE Hnn) as [_ Hpct].
  specialize (Hpct eq_refl). vm_compute in Hpct. destruct Hpct as [Hlo _].
  apply Hlo. reflexivity.
Qed.

(** C10, amended: for every flow table with non-negative [S000] counts
    whose total is below 2^63 (so that no [int64] sum wraps around), the
    jobs of Berkeley residents and the jobs of commuters add up to
    [total_jobs], and [pct_commute_in] lies in [[0, 100]] whenever
    [total_jobs] is positive. *)
Theorem commute_partition (df : list flow_row) (yr : string) :
  Forall (fun r => 0 <= S000 (od (job r))) df ->
  Zsum (jobs df) < 2 ^ 63 ->
  live_work_berkeley (analyze_commutes df yr) + commute_in (analyze_commutes df yr)
  = total_jobs (analyze_commutes df yr) /\
  (0 < total_jobs (analyze_commutes df yr) ->
   in_pct_range (pct_commute_in (analyze_commutes df yr))).
Proof.
  intros Hnn Hlt.
  cbn [live_work_berkeley commute_in total_jobs pct_commute_in analyze_commutes].
  destruct (sum64_exact_filter lives_in_berkeley df Hnn Hlt) as [El Hl].
  destruct (sum64_exact_filter (fun r => negb (lives_in_berkeley r)) df Hnn Hlt) as [Ec Hc].
  pose proof (sum64_exact df Hnn Hlt) as Et.
  rewrite El, Ec, Et. split.
  - unfold jobs. apply Zsum_partition.
  - intros Hpos. destruct (Z.ltb_spec 0 (Zsum (jobs df))) as [_|Hle]; [|lia].
    destruct (raw_pct_in_range (Zsum (jobs (List.filter (fun r => negb (lives_in_berkeley r)) df)))
                (Zsum (jobs df))) as (q & -> & Hq); [lia|lia|lia|exact Hq].
Qed.

Lemma commute_partition_witness :
  live_work_berkeley (analyze_commutes small_flows YEAR_PRE)
  + commute_in (analyze_commutes small_flows YEAR_PRE)
  = total_jobs (analyze_commutes small_flows YEAR_PRE) /\
  (0 < total_jobs (analyze_commutes small_flows YEAR_PRE) ->
   in_pct_range (pct_commute_in (analyze_commutes small_flows YEAR_PRE))).
Proof.
  apply (commute_partition small_flows YEAR_PRE).
  - repeat constructor; discriminate.
  - reflexivity.
Defined.

(** ** [groupby] *)

Lemma fold_left_permutation {A B} (f : B -> A -> B) (l l' : list A) :
  (forall b x y, f (f b x) y = f (f b y) x) ->
  Permutation l l' -> forall b, fold_left f l b = fold_left f l' b.
Proof.
  intros Hcomm. induction 1 as [|x l l' _ IH|x y l|l l' l'' _ IH1 _ IH2]; intros b; cbn.
  - reflexivity.
  - apply IH.
  - rewrite Hcomm. reflexivity.
  - rewrite IH1. apply IH2.
Qed.

Lemma group_add_comm (m : gmap string Z) (a b : string * Z) :
  group_add (group_add m a) b = group_add (group_add m b) a.
Proof.
  destruct a as [k1 v1], b as [k2 v2]. unfold group_add. cbn [fst snd].
  destruct (decide (k1 = k2)) as [->|Hne].
  - rewrite !lookup_insert_eq, !insert_insert_eq.
    cbn [from_option id].
    rewrite !wrap64_add_l.
    replace (default 0 (m !! k2) + v1 + v2) with (default 0 (m !! k2) + v2 + v1) by lia.
    reflexivity.
  - rewrite (lookup_insert_ne _ k1 k2) by assumption.
    rewrite (lookup_insert_ne _ k2 k1) by (intros E; apply Hne; symmetry; exact E).
    apply insert_insert_ne. intros E. apply Hne. symmetry. exact E.
Qed.

Lemma groupby_sum_permutation (kv kv' : list (string * Z)) :
  Permutation kv kv' -> groupby_sum kv = groupby_sum kv'.
Proof.
  intros H. unfold groupby_sum. apply fold_left_permutation; [|assumption].
  intros. apply group_add_comm.
Qed.

Lemma sum64_permutation (l l' : list Z) : Permutation l l' -> sum64 l = sum64 l'.
Proof. intros H. rewrite !sum64_Zsum, (Zsum_permutation _ _ H). reflexivity. Qed.

(** The values of the rows whose key is [k]. *)
Lemma groupby_from_lookup (kv : list (string * Z)) (m : gmap string Z) (k : string) :
  fold_left group_add kv m !! k
  = match map snd (List.filter (fun p => String.eqb (fst p) k) kv) with
    | [] => m !! k
    | vs => Some (wrap64 (default 0 (m !! k) + Zsum vs))
    end.
Proof.
  revert m. induction kv as [|[k' v] kv IH]; intros m; [reflexivity|].
  cbn [fold_left List.filter fst]. rewrite IH. unfold group_add. cbn [fst snd].
  destruct (String.eqb_spec k' k) as [->|Hne].
  - rewrite lookup_insert_eq. cbn [map snd from_option id].
    destruct (map snd (List.filter (fun p => String.eqb (fst p) k) kv)) as [|v' vs].
    + f_equal. f_equal. unfold Zsum. cbn. lia.
    + f_equal. rewrite wrap64_add_l. f_equal. unfold Zsum. cbn. lia.
  - rewrite lookup_insert_ne by assumption. reflexivity.
Qed.

Lemma dropna_group_values (df : list flow_row) (county : string) :
  map snd (List.filter (fun p => String.eqb (fst p) county)
             (dropna (map (fun r => (h_county r, S000 (od (job r)))) df)))
  = jobs (List.filter (in_county county) df).
Proof.
  unfold jobs, dropna, in_county. induction df as [|r df IH]; [reflexivity|].
  cbn [map flat_map fst snd List.filter]. rewrite List.filter_app, map_app, IH.
  destruct (h_county r) as [c|]; [|reflexivity].
  cbn [List.filter fst]. destruct (String.eqb c county); reflexivity.
Qed.

Lemma dropna_values (df : list flow_row) :
  map snd (dropna (map (fun r => (h_county r, S000 (od (job r)))) df))
  = jobs (List.filter has_county df).
Proof.
  unfold jobs, dropna, has_county. induction df as [|r df IH]; [reflexivity|].
  cbn [map flat_map fst snd List.filter]. rewrite map_app, IH.
  destruct (h_county r); reflexivity.
Qed.

Lemma county_totals_lookup (df : list flow_row) (county : string) :
  county_totals df !! county
  = match jobs (List.filter (in_county county) df) with
    | [] => None
    | group => Some (sum64 group)
    end.
Proof.
  unfold county_totals, groupby_sum. rewrite groupby_from_lookup, lookup_empty.
  rewrite dropna_group_values. cbn [from_option id].
  destruct (jobs _) as [|v vs]; [reflexivity|].
  rewrite sum64_Zsum. reflexivity.
Qed.

Lemma values_sum_insert_fresh (m : gmap string Z) (k : string) (x : Z) :
  m !! k = None ->
  Zsum (map snd (map_to_list (<[k := x]> m))) = x + Zsum (map snd (map_to_list m)).
Proof.
  intros H. rewrite (Zsum_permutation _ (map snd ((k, x) :: map_to_list m))).
  - reflexivity.
  - apply Permutation_map. apply map_to_list_insert. assumption.
Qed.

Lemma values_sum_group_add (m : gmap string Z) (kv : string * Z) :
  wrap64 (Zsum (map snd (map_to_list (group_add m kv))))
  = wrap64 (Zsum (map snd (map_to_list m)) + snd kv).
Proof.
  destruct kv as [k v]. unfold group_add. cbn [fst snd].
  destruct (m !! k) as [d|] eqn:E; cbn [from_option id].
  - rewrite <- (insert_delete_eq m k).
    rewrite values_sum_insert_fresh by apply lookup_delete_eq.
    rewrite <- (insert_delete_id m k d E) at 2.
    rewrite values_sum_insert_fresh by apply lookup_delete_eq.
    rewrite wrap64_add_l. f_equal. lia.
  - rewrite values_sum_insert_fresh by assumption.
    rewrite wrap64_add_l. f_equal. lia.
Qed.

Lemma values_sum_groupby_from (kv : list (string * Z)) (m : gmap string Z) :
  wrap64 (Zsum (map snd (map_to_list (fold_left group_add kv m))))
  = wrap64 (Zsum (map snd (map_to_list m)) + Zsum (map snd kv)).
Proof.
  revert m. induction kv as [|p kv IH]; intros m; cbn [fold_left map].
  - f_equal. unfold Zsum. cbn. lia.
  - rewrite IH. rewrite <- wrap64_add_l, values_sum_group_add, wrap64_add_l.
    f_equal. unfold Zsum. cbn. lia.
Qed.

(** The group totals add up to the total of the rows that have a
    county: no such row is counted twice, and a row without a home
    geocode is in no group. *)
Lemma county_totals_sum (df : list flow_row) :
  group_totals_sum (county_totals df) = sum64 (jobs (List.filter has_county df)).
Proof.
  unfold group_totals_sum, county_totals, groupby_sum.
  rewrite !sum64_Zsum, values_sum_groupby_from, map_to_list_empty, dropna_values.
  reflexivity.
Qed.

Lemma dropna_permutation (kv kv' : list (option string * Z)) :
  Permutation kv kv' -> Permutation (dropna kv) (dropna kv').
Proof. intros H. unfold dropna. apply Permutation_flat_map. exact H. Qed.

(** C6, as stated, fails on a row whose home geocode is missing: it is
    read as NaN, [groupby] drops it, and its jobs are in no group.  Of
    three jobs from San Francisco and four with no home geocode, the
    county totals hold three while the overall total is seven. *)
Lemma county_totals_drop_missing_home :
  map_to_list (county_totals flows_with_missing_home) = [("06075", 3)] /\
  group_totals_sum (county_totals flows_with_missing_home) = 3 /\
  sum64 (jobs flows_with_missing_home) = 7 /\
  ~ (forall df : list flow_row,
       group_totals_sum (county_totals df) = sum64 (jobs df)).
Proof.
  split; [reflexivity|]. split; [reflexivity|]. split; [reflexivity|].
  intros H. specialize (H flows_with_missing_home). vm_compute in H. discriminate.
Qed.

(** C6, amended: the per-county job totals of [top_origins] and the
    overall job total do not depend on the order of the rows.  The total
    of a county is the sum of [S000] over exactly the rows with that
    county prefix, and the county totals add up to the [S000] sum of the
    rows that have a home geocode: every such row is counted in one group
    and once, and a row whose home geocode is missing is counted in none.
    Sorting the totals afterwards lists the same entries. *)
Theorem county_totals_row_order (df df' : list flow_row) :
  Permutation df df' ->
  county_totals df' = county_totals df /\
  sum64 (jobs df') = sum64 (jobs df) /\
  (forall county : string,
      county_totals df !! county
      = match jobs (List.filter (in_county county) df) with
        | [] => None
        | group => Some (sum64 group)
        end) /\
  group_totals_sum (county_totals df) = sum64 (jobs (List.filter has_county df)) /\
  (forall l, sort_values_desc (county_totals df) l ->
             sort_values_desc (county_totals df') l).
Proof.
  intros Hperm.
  assert (E : county_totals df' = county_totals df).
  { unfold county_totals. symmetry. apply groupby_sum_permutation.
    apply dropna_permutation. apply Permutation_map. assumption. }
  split; [exact E|]. split.
  { symmetry. apply sum64_permutation. unfold jobs. apply Permutation_map. assumption. }
  split; [apply county_totals_lookup|]. split; [apply county_totals_sum|].
  intros l Hl. rewrite E. exact Hl.
Qed.

Lemma county_totals_row_order_witness :
  county_totals small_flows_reordered = county_totals small_flows /\
  sum64 (jobs small_flows_reordered) = sum64 (jobs small_flows) /\
  (forall county : string,
      county_totals small_flows !! county
      = match jobs (List.filter (in_county county) small_flows) with
        | [] => None
        | group => Some (sum64 group)
        end) /\
  group_totals_sum (county_totals small_flows)
  = sum64 (jobs (List.filter has_county small_flows)) /\
  (forall l, sort_values_desc (county_totals small_flows) l ->
             sort_values_desc (county_totals small_flows_reordered) l).
Proof.
  apply (county_totals_row_order small_flows small_flows_reordered).
  apply perm_swap.
Defined.

(** ** The block-group pipeline *)

Lemma merge_left_In (bg_geo : list tiger_row) (df : list acs_row) (b : bg_row) :
  In b (merge_left bg_geo df) ->
  In (geo b) bg_geo /\
  match demographics b with
  | Some d => In d df /\ geoid (geo b) = GEOID d
  | None => forall d, In d df -> geoid (geo b) <> GEOID d
  end.
Proof.
  unfold merge_left. rewrite in_flat_map. intros (g & Hg & Hb).
  destruct (List.filter (fun d => String.eqb (geoid g) (GEOID d)) df) as [|d0 ds] eqn:E.
  - destruct Hb as [<-|[]]. cbn. split; [assumption|].
    intros d Hd Heq.
    assert (Hin : In d (List.filter (fun d => String.eqb (geoid g) (GEOID d)) df)).
    { apply filter_In. split; [assumption|]. apply String.eqb_eq. assumption. }
    rewrite E in Hin. destruct Hin.
  - apply in_map_iff in Hb. destruct Hb as (d & <- & Hd). cbn.
    rewrite <- E in Hd. apply filter_In in Hd. destruct Hd as [Hd Heq].
    apply String.eqb_eq in Heq. auto.
Qed.

(** X21: Every Berkeley block group the script saves is an Alameda County
    block group whose tract prefix is on the allow-list, joined with the
    ACS row of the same GEOID when there is one. *)
Lemma berkeley_block_groups_sound (bg_geo : list tiger_row) (df : list acs_row) :
  Forall (fun b =>
            In (geo (bg b)) bg_geo /\ COUNTYFP (geo (bg b)) = "001" /\
            tract_num b = str_prefix 4 (TRACTCE (geo (bg b))) /\
            In (tract_num b) BlockGroup.berkeley_tracts /\
            match demographics (bg b) with
            | Some d => In d df /\ geoid (geo (bg b)) = GEOID d
            | None => True
            end)
         (berkeley_block_groups bg_geo df).
Proof.
  unfold berkeley_block_groups.
  destruct (berkeley_bg_sound (merge_left (alameda bg_geo) df)) as [_ H].
  rewrite List.Forall_forall in *. intros b Hb. destruct (H b Hb) as [Et Hin].
  assert (Hm : In (bg b) (merge_left (alameda bg_geo) df)).
  { unfold berkeley_bg in Hb. apply filter_In in Hb. destruct Hb as [Hb _].
    unfold assign_tract_num in Hb. apply in_map_iff in Hb.
    destruct Hb as (r & <- & Hr). exact Hr. }
  apply merge_left_In in Hm. destruct Hm as [Hg Hd].
  unfold alameda in Hg. apply filter_In in Hg. destruct Hg as [Hg Hc].
  apply String.eqb_eq in Hc.
  repeat split; try assumption.
  destruct (demographics (bg b)); [exact Hd|exact I].
Qed.

(** ** The rounding on known values *)

(** 0.1 is the double 0x3FB999999999999A. *)
Example rnd64_tenth : rnd64 (1 # 10) = (3602879701896397 # 36028797018963968)%Q.
Proof. vm_compute. reflexivity. Qed.

(** 2^53 + 1 lies halfway between two doubles and goes to the even one. *)
Example rnd64_tie_to_even :
  rnd64 (inject_Z (2 ^ 53 + 1)) = inject_Z (2 ^ 53) /\
  rnd64 (inject_Z (2 ^ 53 + 3)) = inject_Z (2 ^ 53 + 4).
Proof. split; vm_compute; reflexivity. Qed.

(** [round(2)] of one third of a hundred is the double nearest 33.33. *)
Example ratio_pct_third : ratio_pct 1 3 = Fin (rnd64 (3333 # 100)).
Proof. vm_compute. reflexivity. Qed.

(** A positive count over a zero denominator is [inf], not [nan]. *)
Example ratio_pct_positive_over_zero : ratio_pct 5 0 = Inf false.
Proof. vm_compute. reflexivity. Qed.

(* ================================================================== *)
(** * Part III: further properties of the two scripts *)
(* ================================================================== *)

(** ** [fetch_lodes]: exceptions and the returned frame *)

Lemma read_loop_app_chunks (chunks : list (list od_row)) (rest : list read_event)
    (acc : list (list job_row)) :
  read_loop (map Chunk chunks ++ rest) acc
  = read_loop rest
      (acc ++ List.filter (fun b => (0 <? length b)%nat) (map berkeley_chunk chunks))%list.
Proof.
  revert acc. induction chunks as [|c chunks IH]; intros acc.
  - cbn. rewrite app_nil_r. reflexivity.
  - cbn [map app read_loop List.filter]. rewrite IH.
    destruct (0 <? length (berkeley_chunk c))%nat; [|reflexivity].
    rewrite <- app_assoc. reflexivity.
Qed.

Lemma read_loop_ok_chunks (events : list read_event) (acc kept : list (list job_row)) :
  read_loop events acc = Ok kept -> exists chunks, events = map Chunk chunks.
Proof.
  revert acc. induction events as [|ev events IH]; intros acc H.
  - exists []. reflexivity.
  - destruct ev as [c|e]; cbn [read_loop] in H; [|discriminate].
    apply IH in H. destruct H as [chunks ->]. exists (c :: chunks). reflexivity.
Qed.

(** X1: An exception raised by the reader, at whatever point of the file,
    makes [fetch_lodes] return [None] and print that exception: the rows
    kept from the chunks read before it are dropped, and nothing after it
    is read. *)
Theorem fetch_lodes_error_discards (before : list (list od_row)) (e : string)
    (after : list read_event) :
  fetch_lodes (map Chunk before ++ ReadError e :: after) = (None, [Error e]).
Proof.
  unfold fetch_lodes. rewrite read_loop_app_chunks. reflexivity.
Qed.

(** X2: A frame returned by [fetch_lodes] is never empty: the reader raised
    nothing, the frame is the Berkeley filter of all the chunks in file
    order, and the one message printed reports its number of rows. *)
Theorem fetch_lodes_frame (events : list read_event) (df : list job_row) :
  fst (fetch_lodes events) = Some df ->
  df <> [] /\
  snd (fetch_lodes events) = [FoundJobs (length df)] /\
  exists chunks, events = map Chunk chunks /\ df = berkeley_chunk (concat chunks).
Proof.
  unfold fetch_lodes. intros H.
  destruct (read_loop events []) as [kept|e] eqn:E; [|discriminate].
  destruct (read_loop_ok_chunks _ _ _ E) as [chunks ->].
  rewrite read_loop_chunks, app_nil_l in E. injection E as <-.
  assert (Hc : concat (List.filter (fun b => (0 <? length b)%nat) (map berkeley_chunk chunks))
               = berkeley_chunk (concat chunks)).
  { rewrite berkeley_chunk_concat. apply concat_nonempty. }
  destruct (List.filter _ (map berkeley_chunk chunks)) as [|b bs] eqn:F; [discriminate|].
  cbn [fst snd] in *. injection H as <-.
  apply filter_nonempty_head in F.
  split; [|split; [reflexivity|exists chunks; split; [reflexivity|exact Hc]]].
  destruct b; [congruence|discriminate].
Qed.

Lemma fetch_lodes_frame_witness :
  berkeley_chunk lehd_chunk <> [] /\
  snd (fetch_lodes [Chunk lehd_chunk]) = [FoundJobs (length (berkeley_chunk lehd_chunk))] /\
  exists chunks, [Chunk lehd_chunk] = map Chunk chunks /\
                 berkeley_chunk lehd_chunk = berkeley_chunk (concat chunks).
Proof.
  apply (fetch_lodes_frame [Chunk lehd_chunk] (berkeley_chunk lehd_chunk)).
  reflexivity.
Defined.

(** ** [main]: what is written *)

(** X4: End to end, for files read without an exception: the frame written
    for a year holds exactly the rows of that year's file whose workplace
    tract is a Berkeley tract, in file order and however the file was cut
    into chunks; the job counts printed are the row counts written, and
    the commute analysis is computed from the written frames. *)
Theorem written_frames_are_berkeley_rows (chunks_pre chunks_post : list (list od_row)) :
  berkeley_chunk (concat chunks_pre) <> [] ->
  berkeley_chunk (concat chunks_post) <> [] ->
  written (main (map Chunk chunks_pre) (map Chunk chunks_post))
  = [ ("data/lehd/berkeley_jobs_2019.csv",
       assign_h_tract (berkeley_chunk (concat chunks_pre)));
      ("data/lehd/berkeley_jobs_2021.csv",
       assign_h_tract (berkeley_chunk (concat chunks_post))) ] /\
  log (main (map Chunk chunks_pre) (map Chunk chunks_post))
  = [ FoundJobs (length (assign_h_tract (berkeley_chunk (concat chunks_pre))));
      FoundJobs (length (assign_h_tract (berkeley_chunk (concat chunks_post)))) ] /\
  analysis (main (map Chunk chunks_pre) (map Chunk chunks_post))
  = Some (analyze_commutes (assign_h_tract (berkeley_chunk (concat chunks_pre))) "2019",
          analyze_commutes (assign_h_tract (berkeley_chunk (concat chunks_post))) "2021").
Proof.
  intros Hpre Hpost.
  assert (F : forall chunks, berkeley_chunk (concat chunks) <> [] ->
            fetch_lodes (map Chunk chunks)
            = (Some (berkeley_chunk (concat chunks)),
               [FoundJobs (length (berkeley_chunk (concat chunks)))])).
  { intros chunks Hne. unfold fetch_lodes. rewrite read_loop_chunks, app_nil_l.
    rewrite berkeley_chunk_concat in *.
    rewrite <- (concat_nonempty (map berkeley_chunk chunks)) in *.
    destruct (List.filter _ (map berkeley_chunk chunks)) as [|b bs];
      [exfalso; apply Hne; reflexivity|].
    reflexivity. }
  unfold main. rewrite (F _ Hpre), (F _ Hpost).
  unfold assign_h_tract. rewrite !length_map. repeat split.
Qed.

Lemma written_frames_are_berkeley_rows_witness :
  written (main (map Chunk [lehd_chunk]) (map Chunk [[]; lehd_chunk]))
  = [ ("data/lehd/berkeley_jobs_2019.csv",
       assign_h_tract (berkeley_chunk (concat [lehd_chunk])));
      ("data/lehd/berkeley_jobs_2021.csv",
       assign_h_tract (berkeley_chunk (concat [[]; lehd_chunk]))) ] /\
  log (main (map Chunk [lehd_chunk]) (map Chunk [[]; lehd_chunk]))
  = [ FoundJobs (length (assign_h_tract (berkeley_chunk (concat [lehd_chunk]))));
      FoundJobs (length (assign_h_tract (berkeley_chunk (concat [[]; lehd_chunk])))) ] /\
  analysis (main (map Chunk [lehd_chunk]) (map Chunk [[]; lehd_chunk]))
  = Some (analyze_commutes (assign_h_tract (berkeley_chunk (concat [lehd_chunk]))) "2019",
          analyze_commutes (assign_h_tract (berkeley_chunk (concat [[]; lehd_chunk]))) "2021").
Proof.
  apply (written_frames_are_berkeley_rows [lehd_chunk] [[]; lehd_chunk]); discriminate.
Defined.

(** ** [analyze_commutes] on the frames of [fetch_lodes] *)

Lemma Zsum_filter_mono {A} (f : A -> Z) (p q : A -> bool) (l : list A) :
  Forall (fun r => 0 <= f r) l ->
  Forall (fun r => p r = true -> q r = true) l ->
  Zsum (map f (List.filter p l)) <= Zsum (map f (List.filter q l)).
Proof.
  intros Hnn Himp. induction l as [|x l IH]; [reflexivity|].
  inversion Hnn as [|? ? Hx Hl]; inversion Himp as [|? ? Hpq Hl']; subst.
  specialize (IH Hl Hl'). cbn [List.filter].
  destruct (p x) eqn:P.
  - rewrite (Hpq eq_refl). unfold Zsum in *. cbn. lia.
  - destruct (q x); unfold Zsum in *; cbn; lia.
Qed.

Lemma fetch_lodes_rows (events : list read_event) (df : list job_row) :
  fst (fetch_lodes events) = Some df ->
  exists chunks, events = map Chunk chunks /\ df = berkeley_chunk (concat chunks).
Proof.
  unfold fetch_lodes. intros H.
  destruct (read_loop events []) as [kept|e] eqn:E; [|discriminate].
  destruct (read_loop_ok_chunks _ _ _ E) as [chunks ->].
  rewrite read_loop_chunks, app_nil_l in E. injection E as <-.
  exists chunks. split; [reflexivity|].
  rewrite berkeley_chunk_concat, <- (concat_nonempty (map berkeley_chunk chunks)).
  destruct (List.filter _ (map berkeley_chunk chunks)); [discriminate|].
  cbn [fst] in H. congruence.
Qed.

Lemma jobs_assign_h_tract (df : list job_row) :
  jobs (assign_h_tract df) = map (fun j => S000 (od j)) df.
Proof. unfold jobs, assign_h_tract. rewrite map_map. reflexivity. Qed.

(** X5: The frames the script analyses come from [fetch_lodes], so every
    workplace is in Berkeley.  On such a frame, with non-negative counts
    whose total stays below 2^63, the workers living in their workplace
    tract are among the workers living in Berkeley, and these among all:
    [0 <= same_tract <= live_work_berkeley <= total_jobs]. *)
Theorem same_tract_within_residents (events : list read_event) (df : list job_row)
    (yr : string) :
  fst (fetch_lodes events) = Some df ->
  Forall (fun j => 0 <= S000 (od j)) df ->
  Zsum (map (fun j => S000 (od j)) df) < 2 ^ 63 ->
  0 <= same_tract (analyze_commutes (assign_h_tract df) yr) /\
  same_tract (analyze_commutes (assign_h_tract df) yr)
  <= live_work_berkeley (analyze_commutes (assign_h_tract df) yr) /\
  live_work_berkeley (analyze_commutes (assign_h_tract df) yr)
  <= total_jobs (analyze_commutes (assign_h_tract df) yr).
Proof.
  intros Hf Hnn Hlt.
  apply fetch_lodes_rows in Hf. destruct Hf as (chunks & _ & Hdf).
  assert (Hw : Forall (fun j => In (w_tract j) Lehd.berkeley_tracts) df).
  { rewrite Hdf. destruct (berkeley_chunk_sound (concat chunks)) as [_ H].
    eapply List.Forall_impl; [|exact H]. intros j [_ Hj]. exact Hj. }
  set (fl := assign_h_tract df).
  assert (Hnn' : Forall (fun r => 0 <= S000 (od (job r))) fl).
  { unfold fl, assign_h_tract. rewrite Forall_map. exact Hnn. }
  assert (Hlt' : Zsum (jobs fl) < 2 ^ 63).
  { unfold fl. rewrite jobs_assign_h_tract. exact Hlt. }
  cbn [same_tract live_work_berkeley total_jobs analyze_commutes].
  destruct (sum64_exact_filter lives_in_work_tract fl Hnn' Hlt') as [Es Hs].
  destruct (sum64_exact_filter lives_in_berkeley fl Hnn' Hlt') as [El Hl].
  rewrite Es, El, (sum64_exact fl Hnn' Hlt').
  split; [lia|]. split; [|lia].
  unfold jobs. apply Zsum_filter_mono; [exact Hnn'|].
  unfold fl, assign_h_tract. rewrite Forall_map.
  eapply List.Forall_impl; [|exact Hw]. cbv beta. intros j Hj Heq.
  unfold lives_in_berkeley, lives_in_work_tract in *. cbn [h_tract job] in *.
  destruct (option_map (str_prefix 11) (h_geocode (od j))) as [t|]; [|discriminate].
  apply String.eqb_eq in Heq. apply isin_In. rewrite Heq. exact Hj.
Qed.

Lemma same_tract_within_residents_witness :
  0 <= same_tract (analyze_commutes (assign_h_tract (berkeley_chunk mixed_chunk)) "2019") /\
  same_tract (analyze_commutes (assign_h_tract (berkeley_chunk mixed_chunk)) "2019")
  <= live_work_berkeley (analyze_commutes (assign_h_tract (berkeley_chunk mixed_chunk)) "2019") /\
  live_work_berkeley (analyze_commutes (assign_h_tract (berkeley_chunk mixed_chunk)) "2019")
  <= total_jobs (analyze_commutes (assign_h_tract (berkeley_chunk mixed_chunk)) "2019").
Proof.
  apply (same_tract_within_residents [Chunk mixed_chunk] (berkeley_chunk mixed_chunk) "2019").
  - reflexivity.
  - repeat constructor; discriminate.
  - reflexivity.
Defined.

(** On the mixed chunk: 3 jobs held by workers living in their workplace
    tract, 5 by workers living in Berkeley, 15 in all. *)
Example mixed_chunk_analysis :
  same_tract (analyze_commutes (assign_h_tract (berkeley_chunk mixed_chunk)) "2019") = 3 /\
  live_work_berkeley (analyze_commutes (assign_h_tract (berkeley_chunk mixed_chunk)) "2019") = 5
  /\
  total_jobs (analyze_commutes (assign_h_tract (berkeley_chunk mixed_chunk)) "2019") = 15.
Proof. repeat split. Qed.

Lemma filter_all {A} (p : A -> bool) (l : list A) :
  Forall (fun x => p x = true) l -> List.filter p l = l.
Proof.
  induction 1 as [|x l Hx _ IH]; [reflexivity|]. cbn. rewrite Hx, IH. reflexivity.
Qed.

Lemma filter_none {A} (p : A -> bool) (l : list A) :
  Forall (fun x => p x = false) l -> List.filter p l = [].
Proof.
  induction 1 as [|x l Hx _ IH]; [reflexivity|]. cbn. rewrite Hx, IH. reflexivity.
Qed.

Lemma raw_pct_whole (n : Z) :
  0 < n -> fmul (fdiv (of_int n) (of_int n)) (Fin 100) = Fin 100.
Proof.
  intros Hn. unfold of_int.
  assert (Ha : (0 < rnd64 (inject_Z n))%Q).
  { apply rnd64_gt0. change 0%Q with (inject_Z 0). rewrite <- Zlt_Qlt. exact Hn. }
  rewrite (fdiv_finite _ _ Ha). cbn [fmul].
  assert (E : (rnd64 (inject_Z n) / rnd64 (inject_Z n) == 1)%Q).
  { apply Qmult_inv_r. intros H0. rewrite H0 in Ha. discriminate. }
  rewrite (rnd64_proper _ _ E). reflexivity.
Qed.

Lemma raw_pct_none (d : Z) :
  0 < d -> fmul (fdiv (of_int 0) (of_int d)) (Fin 100) = Fin 0.
Proof.
  intros Hd. unfold of_int.
  assert (Hb : (0 < rnd64 (inject_Z d))%Q).
  { apply rnd64_gt0. change 0%Q with (inject_Z 0). rewrite <- Zlt_Qlt. exact Hd. }
  rewrite (fdiv_finite _ _ Hb). cbn [fmul].
  change (rnd64 (inject_Z 0)) with 0%Q.
  assert (E : (0 / rnd64 (inject_Z d) == 0)%Q) by (unfold Qdiv; ring).
  rewrite (rnd64_proper _ _ E). reflexivity.
Qed.

(** X6: The two ends of [pct_commute_in] are exact.  When every worker lives
    in Berkeley nobody commutes in and the share is 0; when none does and
    there is at least one job, everybody commutes in and the share is
    exactly 100.0. *)
Theorem commute_share_endpoints (df : list flow_row) (yr : string) :
  (Forall (fun r => lives_in_berkeley r = true) df ->
   commute_in (analyze_commutes df yr) = 0 /\
   pct_commute_in (analyze_commutes df yr) = Fin 0) /\
  (Forall (fun r => lives_in_berkeley r = false) df ->
   0 < total_jobs (analyze_commutes df yr) ->
   commute_in (analyze_commutes df yr) = total_jobs (analyze_commutes df yr) /\
   pct_commute_in (analyze_commutes df yr) = Fin 100).
Proof.
  cbn [commute_in total_jobs pct_commute_in analyze_commutes]. split.
  - intros H. rewrite (filter_none (fun r => negb (lives_in_berkeley r)) df).
    + split; [reflexivity|]. change (sum64 (jobs [])) with 0.
      destruct (Z.ltb_spec 0 (sum64 (jobs df))); [|reflexivity].
      apply raw_pct_none. assumption.
    + eapply List.Forall_impl; [|exact H]. cbv beta. intros r ->. reflexivity.
  - intros H Hpos. rewrite (filter_all (fun r => negb (lives_in_berkeley r)) df).
    + split; [reflexivity|].
      destruct (Z.ltb_spec 0 (sum64 (jobs df))); [|lia].
      apply raw_pct_whole. assumption.
    + eapply List.Forall_impl; [|exact H]. cbv beta. intros r ->. reflexivity.
Qed.

(** X7: With a zero job total the guarded share [pct_commute_in] is 0, but
    the share of resident workers printed beside it is not guarded: it is
    not-a-number when [live_work_berkeley] is zero as well, and an
    infinity otherwise. *)
Theorem resident_share_unguarded (df : list flow_row) (yr : string) :
  total_jobs (analyze_commutes df yr) = 0 ->
  pct_commute_in (analyze_commutes df yr) = Fin 0 /\
  pct_live_work (analyze_commutes df yr)
  = zero_division (live_work_berkeley (analyze_commutes df yr)).
Proof.
  intros H. unfold pct_live_work. rewrite H.
  cbn [total_jobs pct_commute_in analyze_commutes] in *. rewrite H.
  split; [reflexivity|].
  unfold of_int, zero_division. change (rnd64 (inject_Z 0)) with 0%Q.
  cbn [fdiv]. change (0 ?= 0)%Q with Eq. cbv iota. rewrite rnd64_of_int_sign.
  destruct (_ ?= 0); reflexivity.
Qed.

Lemma commute_share_endpoints_witness :
  (commute_in (analyze_commutes [flow "060014005001000" "060014007001000" 3] "2019") = 0 /\
   pct_commute_in (analyze_commutes [flow "060014005001000" "060014007001000" 3] "2019")
   = Fin 0) /\
  (commute_in (analyze_commutes [flow "060014005001000" "060750123450010" 5] "2019")
   = total_jobs (analyze_commutes [flow "060014005001000" "060750123450010" 5] "2019") /\
   pct_commute_in (analyze_commutes [flow "060014005001000" "060750123450010" 5] "2019")
   = Fin 100).
Proof.
  split.
  - apply (proj1 (commute_share_endpoints
                    [flow "060014005001000" "060014007001000" 3] "2019")).
    repeat constructor.
  - apply (proj2 (commute_share_endpoints
                    [flow "060014005001000" "060750123450010" 5] "2019")).
    + repeat constructor.
    + reflexivity.
Defined.

Lemma resident_share_unguarded_witness :
  pct_commute_in (analyze_commutes [flow "060014005001000" "060750123450010" 0] "2019")
  = Fin 0 /\
  pct_live_work (analyze_commutes [flow "060014005001000" "060750123450010" 0] "2019")
  = zero_division
      (live_work_berkeley
         (analyze_commutes [flow "060014005001000" "060750123450010" 0] "2019")).
Proof.
  apply (resident_share_unguarded [flow "060014005001000" "060750123450010" 0] "2019").
  reflexivity.
Defined.

(** ** [top_origins] *)

Lemma county_total_default (df : list flow_row) (county : string) :
  default 0 (county_totals df !! county)
  = sum64 (jobs (List.filter (in_county county) df)).
Proof.
  rewrite county_totals_lookup.
  destruct (jobs _) as [|v vs]; reflexivity.
Qed.

(** X9: The counties of the grouped totals are the five-character prefixes
    of the home geocodes present in the frame: a county has an entry
    exactly when some row has it, also when its jobs add up to zero. *)
Theorem county_totals_keys (df : list flow_row) (county : string) :
  (is_Some (county_totals df !! county) <->
   exists r, In r df /\
             option_map (str_prefix 5) (h_geocode (od (job r))) = Some county) /\
  (is_Some (county_totals df !! county) -> (String.length county <= 5)%nat).
Proof.
  assert (K : is_Some (county_totals df !! county) <->
              exists r, In r df /\
                        option_map (str_prefix 5) (h_geocode (od (job r))) = Some county).
  { rewrite county_totals_lookup. split.
    - intros Hs.
      destruct (List.filter (in_county county) df) as [|r rs] eqn:E.
      + cbn in Hs. destruct Hs as [? Hs]. discriminate.
      + assert (Hin : In r (r :: rs)) by (left; reflexivity).
        rewrite <- E in Hin. apply filter_In in Hin. destruct Hin as [Hin Hk].
        unfold in_county, h_county in Hk.
        destruct (option_map (str_prefix 5) (h_geocode (od (job r)))) as [c|] eqn:Ec;
          [|discriminate].
        apply String.eqb_eq in Hk. subst c. exists r. split; assumption.
    - intros (r & Hin & Hk).
      assert (Hf : In r (List.filter (in_county county) df)).
      { apply filter_In. split; [assumption|]. unfold in_county, h_county.
        rewrite Hk. apply String.eqb_refl. }
      destruct (List.filter _ df) as [|r0 rs]; [destruct Hf|].
      cbn. eexists. reflexivity. }
  split; [exact K|].
  intros Hs. apply K in Hs. destruct Hs as (r & _ & Hk).
  destruct (h_geocode (od (job r))) as [home|]; [|discriminate].
  cbn in Hk. injection Hk as <-. rewrite str_prefix_length. lia.
Qed.

Lemma county_totals_keys_witness :
  (is_Some (county_totals small_flows !! "06075") <->
   exists r, In r small_flows /\
             option_map (str_prefix 5) (h_geocode (od (job r))) = Some "06075") /\
  (is_Some (county_totals small_flows !! "06075") -> (String.length "06075" <= 5)%nat).
Proof. apply (county_totals_keys small_flows "06075"). Defined.

(** X10: With non-negative counts whose total is positive and below 2^63,
    the share printed for every county lies in [[0, 100]]. *)
Theorem county_share_in_range (df : list flow_row) (county : string) (county_jobs : Z) :
  county_totals df !! county = Some county_jobs ->
  Forall (fun r => 0 <= S000 (od (job r))) df ->
  Zsum (jobs df) < 2 ^ 63 ->
  0 < sum64 (jobs df) ->
  0 <= county_jobs <= sum64 (jobs df) /\
  in_pct_range (county_share df county_jobs).
Proof.
  intros Hc Hnn Hlt Hpos.
  assert (Ej : county_jobs = sum64 (jobs (List.filter (in_county county) df))).
  { rewrite <- county_total_default, Hc. reflexivity. }
  destruct (sum64_exact_filter (in_county county) df Hnn Hlt) as [Ef Hf].
  pose proof (sum64_exact df Hnn Hlt) as Et.
  assert (Hb : 0 <= county_jobs <= sum64 (jobs df)) by lia.
  split; [exact Hb|]. unfold county_share.
  destruct (raw_pct_in_range county_jobs (sum64 (jobs df))) as (q & -> & Hq);
    [lia|lia|lia|exact Hq].
Qed.

Lemma county_share_in_range_witness :
  0 <= 5 <= sum64 (jobs small_flows) /\ in_pct_range (county_share small_flows 5).
Proof.
  apply (county_share_in_range small_flows "06075" 5).
  - vm_compute. reflexivity.
  - repeat constructor; discriminate.
  - reflexivity.
  - reflexivity.
Defined.

Lemma sorted_app_dominates {A} (R : A -> A -> Prop) (l1 l2 : list A) :
  StronglySorted R (l1 ++ l2) -> forall a b, In a l1 -> In b l2 -> R a b.
Proof.
  induction l1 as [|x l1 IH]; intros Hs a b Ha Hb; [destruct Ha|].
  cbn in Hs. apply StronglySorted_inv in Hs. destruct Hs as [Hs Hx].
  destruct Ha as [<-|Ha].
  - rewrite List.Forall_forall in Hx. apply Hx. apply in_or_app. right. exact Hb.
  - eapply IH; eassumption.
Qed.

Lemma insert_desc_permutation (e : string * Z) (l : list (string * Z)) :
  Permutation (insert_desc e l) (e :: l).
Proof.
  induction l as [|x l IH]; [reflexivity|].
  cbn [insert_desc]. destruct (snd x <? snd e); [reflexivity|].
  rewrite IH. apply perm_swap.
Qed.

Lemma insert_desc_sorted (e : string * Z) (l : list (string * Z)) :
  StronglySorted (fun a b => snd b <= snd a) l ->
  StronglySorted (fun a b => snd b <= snd a) (insert_desc e l).
Proof.
  induction 1 as [|x l Hs IH Hx]; [repeat constructor|].
  cbn [insert_desc]. destruct (Z.ltb_spec (snd x) (snd e)) as [Hlt|Hge].
  - constructor; [constructor; assumption|].
    constructor; [lia|]. eapply List.Forall_impl; [|exact Hx]. cbv beta. intros b Hb. lia.
  - constructor; [exact IH|].
    apply List.Forall_forall. intros b Hb.
    apply (Permutation_in _ (insert_desc_permutation e l)) in Hb.
    destruct Hb as [<-|Hb]; [exact Hge|].
    rewrite List.Forall_forall in Hx. apply Hx. exact Hb.
Qed.

(** The sorting function sorts. *)
Lemma sort_values_sorts (m : gmap string Z) : sort_values_desc m (sort_values m).
Proof.
  unfold sort_values_desc, sort_values.
  induction (map_to_list m) as [|e l [IHp IHs]]; [split; [reflexivity|constructor]|].
  cbn [fold_right]. split.
  - rewrite insert_desc_permutation. apply perm_skip. exact IHp.
  - apply insert_desc_sorted. exact IHs.
Qed.

Lemma NoDup_map_injective {A B} (f : A -> B) (l : list A) :
  (forall x y, f x = f y -> x = y) -> List.NoDup l -> List.NoDup (map f l).
Proof.
  intros Hf. induction 1 as [|x l Hx _ IH]; [constructor|].
  cbn. constructor; [|exact IH].
  intros Hin. apply in_map_iff in Hin. destruct Hin as (y & Hy & Hin).
  apply Hf in Hy. subst y. contradiction.
Qed.
Lemma county_names_lookup (code : string) :
  county_names !! code
  = if String.eqb code "06001" then Some "Alameda County (includes Berkeley)"
    else if String.eqb code "06013" then Some "Contra Costa County"
    else if String.eqb code "06075" then Some "San Francisco County"
    else if String.eqb code "06081" then Some "San Mateo County"
    else if String.eqb code "06085" then Some "Santa Clara County"
    else if String.eqb code "06097" then Some "Sonoma County"
    else if String.eqb code "06095" then Some "Solano County"
    else None.
Proof.
  unfold county_names. cbn [list_to_map foldr uncurry fst snd].
  repeat match goal with
         | |- context [String.eqb code ?k] =>
             destruct (String.eqb_spec code k) as [->|?];
             [reflexivity|rewrite (lookup_insert_ne _ k code) by congruence]
         end.
  apply lookup_empty.
Qed.

Lemma county_label_inj (code1 code2 : string) :
  county_label code1 = county_label code2 -> code1 = code2.
Proof.
  unfold county_label. rewrite !county_names_lookup.
  repeat match goal with
         | |- context [String.eqb ?c ?k] =>
             is_var c; destruct (String.eqb_spec c k) as [->|?]
         end;
    cbn; intros H; try reflexivity; cbv [String.append] in H; congruence.
Qed.

(** X12: [county_names.get(code, f"County {code}")]: a code of the
    dictionary gets its name, any other code the label "County <code>",
    and two different codes never get the same label. *)
Theorem county_labels_distinct (code1 code2 : string) :
  code1 <> code2 -> county_label code1 <> county_label code2.
Proof. intros Hne H. apply Hne. apply county_label_inj. exact H. Qed.

Lemma county_labels_distinct_witness : county_label "06001" <> county_label "06099".
Proof. apply (county_labels_distinct "06001" "06099"). discriminate. Defined.

(** X11: The lines [top_origins] prints are the [n] largest county totals:
    there are as many lines as counties, up to [n]; each line carries the
    label, the true total and the share of a county of the frame; no
    label is printed twice; and every county of the frame is either
    printed or has no more jobs than any county printed. *)
Theorem top_origins_lists_largest (df : list flow_row) (n : nat) :
  length (top_origins df n) = Nat.min n (size (county_totals df)) /\
  Forall (fun line =>
            exists county,
              county_totals df !! county = Some (snd (fst line)) /\
              fst (fst line) = county_label county /\
              snd line = county_share df (snd (fst line)))
         (top_origins df n) /\
  List.NoDup (map (fun line => fst (fst line)) (top_origins df n)) /\
  (forall county county_jobs,
      county_totals df !! county = Some county_jobs ->
      In (county_label county, county_jobs, county_share df county_jobs) (top_origins df n)
      \/ Forall (fun line => county_jobs <= snd (fst line)) (top_origins df n)).
Proof.
  destruct (sort_values_sorts (county_totals df)) as [Hperm Hsorted].
  unfold top_origins, top_origins_lines.
  set (l := sort_values (county_totals df)) in *.
  assert (Hl : forall e, In e l -> county_totals df !! fst e = Some (snd e)).
  { intros [c j] Hin. apply (Permutation_in _ Hperm) in Hin.
    apply list_elem_of_In in Hin. apply elem_of_map_to_list in Hin. exact Hin. }
  assert (Hfirst : forall e, In e (firstn n l) -> In e l).
  { intros e He. rewrite <- (firstn_skipn n l). apply in_or_app. left. exact He. }
  split; [|split; [|split]].
  - rewrite length_map, length_firstn.
    rewrite (Permutation_length Hperm), length_map_to_list. reflexivity.
  - apply List.Forall_forall. intros line Hline. apply in_map_iff in Hline.
    destruct Hline as (e & <- & He). exists (fst e). cbn [fst snd].
    split; [apply Hl, Hfirst, He|]. split; reflexivity.
  - assert (Hnd : List.NoDup (map fst l)).
    { eapply Permutation.Permutation_NoDup; [apply Permutation_map; symmetry; exact Hperm|].
      apply NoDup_ListNoDup. apply (NoDup_fst_map_to_list (county_totals df)). }
    rewrite <- (firstn_skipn n l), map_app in Hnd.
    apply List.NoDup_app_remove_r in Hnd.
    rewrite map_map. cbn [fst].
    rewrite <- (map_map fst county_label).
    apply NoDup_map_injective; [apply county_label_inj|exact Hnd].
  - intros county county_jobs Hc.
    assert (Hin : In (county, county_jobs) l).
    { apply (Permutation_in _ (Permutation_sym Hperm)).
      apply list_elem_of_In. apply elem_of_map_to_list. exact Hc. }
    rewrite <- (firstn_skipn n l) in Hin. apply in_app_or in Hin.
    destruct Hin as [Hin|Hin].
    + left. apply in_map_iff. exists (county, county_jobs). split; [reflexivity|exact Hin].
    + right. apply List.Forall_forall. intros line Hline. apply in_map_iff in Hline.
      destruct Hline as (e & <- & He). cbn [fst snd].
      rewrite <- (firstn_skipn n l) in Hsorted.
      apply (sorted_app_dominates _ _ _ Hsorted e (county, county_jobs) He Hin).
Qed.

(** The two largest counties of the small table. *)
Example top_origins_small :
  top_origins small_flows 2
  = [ ("San Francisco County", 5, Fin 50);
      ("Alameda County (includes Berkeley)", 3, Fin 30) ].
Proof. vm_compute. reflexivity. Qed.

Lemma county_label_unknown (code : string) :
  county_names !! code = None -> county_label code = String.append "County " code.
Proof. intros H. unfold county_label. rewrite H. reflexivity. Qed.

Lemma str_prefix_prefix (m n : nat) (s : string) :
  (m <= n)%nat -> str_prefix m (str_prefix n s) = str_prefix m s.
Proof.
  unfold str_prefix. revert m n. induction s as [|c s IH]; intros m n Hmn.
  - destruct n, m; reflexivity.
  - destruct m as [|m]; [destruct n; reflexivity|].
    destruct n as [|n]; [lia|]. cbn. f_equal. apply IH. lia.
Qed.

Lemma lehd_tracts_in_alameda :
  Forall (fun t => str_prefix 5 t = "06001") Lehd.berkeley_tracts.
Proof. repeat constructor. Qed.

(** X13: The county totals agree with the tract-level analysis: Alameda
    County, "06001", which the report labels "(includes Berkeley)", is
    credited with at least the jobs of the workers who live in Berkeley
    (non-negative counts, total below 2^63). *)
Theorem alameda_includes_berkeley (df : list job_row) (yr : string) :
  Forall (fun j => 0 <= S000 (od j)) df ->
  Zsum (map (fun j => S000 (od j)) df) < 2 ^ 63 ->
  live_work_berkeley (analyze_commutes (assign_h_tract df) yr)
  <= default 0 (county_totals (assign_h_tract df) !! "06001").
Proof.
  intros Hnn Hlt. set (fl := assign_h_tract df).
  assert (Hnn' : Forall (fun r => 0 <= S000 (od (job r))) fl).
  { unfold fl, assign_h_tract. rewrite Forall_map. exact Hnn. }
  assert (Hlt' : Zsum (jobs fl) < 2 ^ 63).
  { unfold fl. rewrite jobs_assign_h_tract. exact Hlt. }
  rewrite county_total_default. cbn [live_work_berkeley analyze_commutes].
  destruct (sum64_exact_filter lives_in_berkeley fl Hnn' Hlt') as [-> _].
  destruct (sum64_exact_filter (in_county "06001") fl Hnn' Hlt') as [-> _].
  unfold jobs. apply Zsum_filter_mono; [exact Hnn'|].
  unfold fl, assign_h_tract. rewrite Forall_map. apply List.Forall_forall.
  intros j _ Hlive. unfold lives_in_berkeley, in_county, h_county in *.
  cbn [h_tract job] in *.
  destruct (h_geocode (od j)) as [home|]; [|discriminate]. cbn [option_map] in *.
  apply isin_In in Hlive. apply String.eqb_eq.
  rewrite <- (str_prefix_prefix 5 11) by lia.
  apply (proj1 (List.Forall_forall _ _) lehd_tracts_in_alameda _ Hlive).
Qed.

Lemma alameda_includes_berkeley_witness :
  live_work_berkeley (analyze_commutes (assign_h_tract (berkeley_chunk mixed_chunk)) "2019")
  <= default 0 (county_totals (assign_h_tract (berkeley_chunk mixed_chunk)) !! "06001").
Proof.
  apply (alameda_includes_berkeley (berkeley_chunk mixed_chunk) "2019").
  - repeat constructor; discriminate.
  - reflexivity.
Defined.

(** On the mixed chunk five jobs are held by Berkeley residents and nine
    by residents of Alameda County (four of them from Oakland). *)
Example mixed_chunk_alameda :
  live_work_berkeley (analyze_commutes (assign_h_tract (berkeley_chunk mixed_chunk)) "2019") = 5
  /\
  county_totals (assign_h_tract (berkeley_chunk mixed_chunk)) !! "06001" = Some 9.
Proof. split; vm_compute; reflexivity. Qed.

(** ** The block-group percentages *)

Lemma fdiv_nonzero (a b : Q) :
  ~ (b == 0)%Q -> fdiv (Fin a) (Fin b) = Fin (rnd64 (a / b)).
Proof.
  intros Hb. unfold fdiv. destruct (Qcompare_spec b 0) as [E|L|G]; [contradiction|reflexivity..].
Qed.

Lemma rnd64_of_int_nonzero (d : Z) : d <> 0 -> ~ (rnd64 (inject_Z d) == 0)%Q.
Proof.
  intros Hd H. pose proof (rnd64_of_int_sign d) as S.
  apply Qeq_alt in H. rewrite H in S. symmetry in S. apply Z.compare_eq in S. contradiction.
Qed.

(** X17: The ends of the block-group percentages are exact: with a non-zero
    denominator, a zero numerator gives 0.0 and a numerator equal to the
    denominator gives 100.0. *)
Theorem ratio_pct_endpoints (d : Z) :
  d <> 0 -> ratio_pct 0 d = Fin 0 /\ ratio_pct d d = Fin 100.
Proof.
  intros Hd. pose proof (rnd64_of_int_nonzero d Hd) as Hb.
  unfold ratio_pct, pct, of_int. split.
  - rewrite (fdiv_nonzero _ _ Hb). change (rnd64 (inject_Z 0)) with 0%Q.
    assert (E : (0 / rnd64 (inject_Z d) == 0)%Q) by (unfold Qdiv; ring).
    rewrite (rnd64_proper _ _ E). reflexivity.
  - rewrite (fdiv_nonzero _ _ Hb).
    assert (E : (rnd64 (inject_Z d) / rnd64 (inject_Z d) == 1)%Q)
      by (apply Qmult_inv_r; exact Hb).
    rewrite (rnd64_proper _ _ E). reflexivity.
Qed.

Lemma ratio_pct_endpoints_witness : ratio_pct 0 480 = Fin 0 /\ ratio_pct 480 480 = Fin 100.
Proof. apply (ratio_pct_endpoints 480). discriminate. Defined.

Lemma ratio_pct_finite (n d : Z) :
  0 < d ->
  ratio_pct n d
  = Fin (rnd64 (inject_Z (rint (rnd64 (rnd64 (rnd64 (rnd64 (inject_Z n) / rnd64 (inject_Z d))
                                               * 100) * 100))) / 100)).
Proof.
  intros Hd. unfold ratio_pct, pct, of_int.
  rewrite fdiv_finite.
  - unfold round2. cbn [fmul frint]. rewrite fdiv_finite by reflexivity. reflexivity.
  - apply rnd64_gt0. change 0%Q with (inject_Z 0). rewrite <- Zlt_Qlt. exact Hd.
Qed.

(** X18: For a positive denominator the percentage never decreases when the
    numerator grows: the roundings do not reorder two block groups. *)
Theorem ratio_pct_monotone (n1 n2 d : Z) :
  0 < d -> n1 <= n2 ->
  exists q1 q2, ratio_pct n1 d = Fin q1 /\ ratio_pct n2 d = Fin q2 /\ (q1 <= q2)%Q.
Proof.
  intros Hd Hn. rewrite !ratio_pct_finite by assumption.
  eexists. eexists. split; [reflexivity|]. split; [reflexivity|].
  assert (Hb : (0 < rnd64 (inject_Z d))%Q).
  { apply rnd64_gt0. change 0%Q with (inject_Z 0). rewrite <- Zlt_Qlt. exact Hd. }
  apply rnd64_mono. apply Qmult_le_r; [reflexivity|]. rewrite <- Zle_Qle.
  apply rint_mono. apply rnd64_mono. apply Qmult_le_r; [reflexivity|].
  apply rnd64_mono. apply Qmult_le_r; [reflexivity|].
  apply rnd64_mono. apply Qmult_le_r; [apply Qinv_lt_0_compat; exact Hb|].
  apply rnd64_mono. rewrite <- Zle_Qle. exact Hn.
Qed.

Lemma ratio_pct_monotone_witness :
  exists q1 q2, ratio_pct 100 480 = Fin q1 /\ ratio_pct 120 480 = Fin q2 /\ (q1 <= q2)%Q.
Proof. apply (ratio_pct_monotone 100 120 480); [reflexivity|discriminate]. Defined.

(** ** The left merge *)

Lemma filter_unique_key (df : list acs_row) (key : string) :
  List.NoDup (map GEOID df) ->
  (length (List.filter (fun d => String.eqb key (GEOID d)) df) <= 1)%nat.
Proof.
  induction df as [|d df IH]; intros Hnd; [cbn; lia|].
  cbn [map] in Hnd. apply List.NoDup_cons_iff in Hnd. destruct Hnd as [Hnotin Hnd].
  cbn [List.filter]. destruct (String.eqb_spec key (GEOID d)) as [E|_]; [|auto].
  assert (Hnone : List.filter (fun d => String.eqb key (GEOID d)) df = []).
  { apply filter_none. apply List.Forall_forall. intros d' Hd'.
    destruct (String.eqb_spec key (GEOID d')) as [E'|_]; [|reflexivity].
    exfalso. apply Hnotin. rewrite <- E, E'. apply in_map. exact Hd'. }
  rewrite Hnone. cbn. lia.
Qed.

(** X20: The left merge loses no block group: every TIGER row has at least
    one merged row.  When the GEOIDs of the ACS frame are distinct it has
    exactly one, so the merged frame is the TIGER frame, row for row, with
    the demographics attached. *)
Theorem merge_left_keeps_block_groups (bg_geo : list tiger_row) (df : list acs_row) :
  (length bg_geo <= length (merge_left bg_geo df))%nat /\
  Forall (fun g => In g (map geo (merge_left bg_geo df))) bg_geo /\
  (List.NoDup (map GEOID df) -> map geo (merge_left bg_geo df) = bg_geo).
Proof.
  unfold merge_left. split; [|split].
  - induction bg_geo as [|g bg_geo IH]; [reflexivity|].
    cbn [flat_map length]. rewrite length_app.
    destruct (List.filter _ df) as [|d ds]; rewrite ?length_map; cbn [length]; lia.
  - apply List.Forall_forall. intros g Hg. apply in_map_iff.
    destruct (List.filter (fun d => String.eqb (geoid g) (GEOID d)) df) as [|d ds] eqn:E.
    + exists {| geo := g; demographics := None |}. split; [reflexivity|].
      apply in_flat_map. exists g. split; [exact Hg|]. rewrite E. left. reflexivity.
    + exists {| geo := g; demographics := Some d |}. split; [reflexivity|].
      apply in_flat_map. exists g. split; [exact Hg|]. rewrite E. left. reflexivity.
  - intros Hnd. induction bg_geo as [|g bg_geo IH]; [reflexivity|].
    cbn [flat_map]. rewrite map_app, IH.
    pose proof (filter_unique_key df (geoid g) Hnd) as Hlen.
    destruct (List.filter _ df) as [|d [|d' ds]]; cbn in *; [reflexivity|reflexivity|lia].
Qed.

Lemma merge_left_keeps_block_groups_witness :
  (length [ {| geoid := "060014220001"; COUNTYFP := "001"; TRACTCE := "422000" |} ]
   <= length (merge_left [ {| geoid := "060014220001"; COUNTYFP := "001";
                              TRACTCE := "422000" |} ]
                         [empty_block_group; some_block_group]))%nat /\
  Forall (fun g => In g (map geo (merge_left
                                    [ {| geoid := "060014220001"; COUNTYFP := "001";
                                         TRACTCE := "422000" |} ]
                                    [empty_block_group; some_block_group])))
         [ {| geoid := "060014220001"; COUNTYFP := "001"; TRACTCE := "422000" |} ] /\
  map geo (merge_left [ {| geoid := "060014220001"; COUNTYFP := "001";
                           TRACTCE := "422000" |} ]
                      [empty_block_group; some_block_group])
  = [ {| geoid := "060014220001"; COUNTYFP := "001"; TRACTCE := "422000" |} ].
Proof.
  destruct (merge_left_keeps_block_groups
              [ {| geoid := "060014220001"; COUNTYFP := "001"; TRACTCE := "422000" |} ]
              [empty_block_group; some_block_group]) as (H1 & H2 & H3).
  split; [exact H1|]. split; [exact H2|]. apply H3.
  repeat constructor; cbn; intuition discriminate.
Defined.

(** ** The accuracy of the rounding *)

(** Rounding to [float64] moves a positive number by at most one part
    in 2^53. *)
Lemma round_pos_error (a : Q) :
  (0 < a)%Q ->
  (a - a * (1 # 9007199254740992) <= round_pos a /\
   round_pos a <= a + a * (1 # 9007199254740992))%Q.
Proof.
  intros Ha. destruct (binade_spec a Ha) as [Hlo _].
  unfold round_pos. cbv zeta.
  set (e := binade a) in *. set (s := (2 ^ (e - 52))%Q).
  set (m := (a * 2 ^ (52 - e))%Q).
  assert (Hs : (0 < s)%Q) by apply pow2_pos.
  assert (Hms : (m * s == a)%Q).
  { unfold m, s. rewrite <- Qmult_assoc, pow2_cancel. ring. }
  assert (Hsa : (s <= a * (1 # 4503599627370496))%Q).
  { unfold s. replace (e - 52)%Z with (e + -52)%Z by lia.
    rewrite (pow2_add e (-52)). change (2 ^ (-52))%Q with (1 # 4503599627370496)%Q.
    apply Qmult_le_r; [reflexivity|exact Hlo]. }
  destruct (rint_bounds m) as [H1 H2].
  assert (H1' : ((inject_Z (rint m) - (1 # 2)) * s <= m * s)%Q)
    by (apply Qmult_le_r; assumption).
  assert (H2' : (m * s <= (inject_Z (rint m) + (1 # 2)) * s)%Q)
    by (apply Qmult_le_r; assumption).
  rewrite Hms in H1', H2'.
  set (R := (inject_Z (rint m) * s)%Q) in *.
  assert (E1 : ((inject_Z (rint m) - (1 # 2)) * s == R - (1 # 2) * s)%Q) by (unfold R; ring).
  assert (E2 : ((inject_Z (rint m) + (1 # 2)) * s == R + (1 # 2) * s)%Q) by (unfold R; ring).
  rewrite E1 in H1'. rewrite E2 in H2'. split; lra.
Qed.

Lemma rnd64_error_nonneg (q : Q) :
  (0 <= q)%Q ->
  (q - q * (1 # 9007199254740992) <= rnd64 q /\
   rnd64 q <= q + q * (1 # 9007199254740992))%Q.
Proof.
  intros Hq. destruct (Qle_lt_or_eq _ _ Hq) as [Hpos|Hz].
  - rewrite (rnd64_pos q Hpos). apply round_pos_error. exact Hpos.
  - rewrite (rnd64_zero q) by (symmetry; exact Hz). rewrite <- Hz. split; lra.
Qed.

Lemma rnd64_error_nonpos (q : Q) :
  (q <= 0)%Q ->
  (q + q * (1 # 9007199254740992) <= rnd64 q /\
   rnd64 q <= q - q * (1 # 9007199254740992))%Q.
Proof.
  intros Hq. destruct (Qle_lt_or_eq _ _ Hq) as [Hneg|Hz].
  - rewrite (rnd64_neg q Hneg).
    destruct (round_pos_error (- q)) as [H1 H2]; [lra|]. split; lra.
  - rewrite (rnd64_zero q) by exact Hz. rewrite Hz. split; lra.
Qed.

(** Integers up to 2^53 are [float64] values. *)
Lemma rnd64_exact_int (n : Z) :
  0 <= n <= 2 ^ 53 -> (rnd64 (inject_Z n) == inject_Z n)%Q.
Proof.
  intros [H0 H53].
  destruct (Z.eq_dec n 0) as [->|Hn0]; [reflexivity|].
  destruct (Z.eq_dec n (2 ^ 53)) as [->|Hn53]; [vm_compute; reflexivity|].
  assert (Hpos : (0 < inject_Z n)%Q).
  { change 0%Q with (inject_Z 0). rewrite <- Zlt_Qlt. lia. }
  rewrite (rnd64_pos _ Hpos). destruct (binade_spec _ Hpos) as [Hlo Hhi].
  set (e := binade (inject_Z n)) in *.
  assert (He0 : (0 <= e)%Z).
  { assert (H : (2 ^ 0 < 2 ^ (e + 1))%Q).
    { eapply Qle_lt_trans; [|exact Hhi]. change (2 ^ 0)%Q with (inject_Z 1).
      rewrite <- Zle_Qle. lia. }
    apply (Qpower_lt_compat_l_inv 2 0 (e + 1)) in H; [lia|reflexivity]. }
  assert (He52 : (e <= 52)%Z).
  { assert (H : (2 ^ e < 2 ^ 53)%Q).
    { eapply Qle_lt_trans; [exact Hlo|]. rewrite <- (pow2_Z 53) by lia.
      rewrite <- Zlt_Qlt. lia. }
    apply (Qpower_lt_compat_l_inv 2 e 53) in H; [lia|reflexivity]. }
  unfold round_pos. cbv zeta. fold e.
  assert (Em : (inject_Z n * 2 ^ (52 - e) == inject_Z (n * 2 ^ (52 - e)))%Q).
  { rewrite inject_Z_mult, (pow2_Z (52 - e)) by lia. reflexivity. }
  rewrite (rint_proper _ _ Em), rint_Z, inject_Z_mult, (pow2_Z (52 - e)) by lia.
  rewrite <- Qmult_assoc, pow2_cancel. ring.
Qed.

(** X19: With a numerator between 0 and the denominator and a denominator
    that a [float64] holds exactly (at most 2^53), a block-group
    percentage is within 0.005 (and a rounding residue below 10^-12) of
    the exact percentage [100 * n / d]. *)
Theorem ratio_pct_accuracy (n d : Z) :
  0 <= n <= d -> 0 < d <= 2 ^ 53 ->
  exists q, ratio_pct n d = Fin q /\
    (100 * inject_Z n / inject_Z d - ((5 # 1000) + (1 # 1000000000000)) <= q /\
     q <= 100 * inject_Z n / inject_Z d + ((5 # 1000) + (1 # 1000000000000)))%Q.
Proof.
  intros [Hn0 Hnd] [Hd0 Hd53]. rewrite ratio_pct_finite by assumption.
  eexists. split; [reflexivity|].
  assert (En : (rnd64 (inject_Z n) == inject_Z n)%Q) by (apply rnd64_exact_int; lia).
  assert (Ed : (rnd64 (inject_Z d) == inject_Z d)%Q) by (apply rnd64_exact_int; lia).
  assert (Hdq : (0 < inject_Z d)%Q).
  { change 0%Q with (inject_Z 0). rewrite <- Zlt_Qlt. exact Hd0. }
  assert (Et : (rnd64 (inject_Z n) / rnd64 (inject_Z d) == inject_Z n / inject_Z d)%Q).
  { rewrite En, Ed. reflexivity. }
  rewrite (rnd64_proper _ _ Et).
  set (t := (inject_Z n / inject_Z d)%Q).
  assert (Ht0 : (0 <= t)%Q).
  { apply Qle_shift_div_l; [exact Hdq|]. rewrite Qmult_0_l.
    change 0%Q with (inject_Z 0). rewrite <- Zle_Qle. exact Hn0. }
  assert (Ht1 : (t <= 1)%Q).
  { apply Qle_shift_div_r; [exact Hdq|]. rewrite Qmult_1_l. rewrite <- Zle_Qle. exact Hnd. }
  assert (Egoal : (100 * inject_Z n / inject_Z d == 100 * t)%Q) by (unfold t; field; lra).
  rewrite Egoal.
  destruct (rnd64_error_nonneg t Ht0) as [A1 B1].
  set (x1 := rnd64 t) in *.
  destruct (rnd64_error_nonneg (x1 * 100)) as [A2 B2]; [lra|].
  set (x2 := rnd64 (x1 * 100)) in *.
  destruct (rnd64_error_nonneg (x2 * 100)) as [A3 B3]; [lra|].
  set (x3 := rnd64 (x2 * 100)) in *.
  destruct (rint_bounds x3) as [A4 B4].
  assert (Hz0 : (0 <= inject_Z (rint x3))%Q).
  { change 0%Q with (inject_Z (rint (inject_Z 0))). rewrite <- Zle_Qle.
    apply rint_mono. change (inject_Z 0) with 0%Q. lra. }
  set (z := inject_Z (rint x3)) in *.
  destruct (rnd64_error_nonneg (z / 100)) as [A5 B5].
  { apply Qle_shift_div_l; [reflexivity|]. lra. }
  set (x4 := rnd64 (z / 100)) in *.
  assert (Ez : (z / 100 == z * (1 # 100))%Q) by (field).
  rewrite Ez in A5, B5. split; lra.
Qed.

Lemma ratio_pct_accuracy_witness :
  exists q, ratio_pct 1 3 = Fin q /\
    (100 * inject_Z 1 / inject_Z 3 - ((5 # 1000) + (1 # 1000000000000)) <= q /\
     q <= 100 * inject_Z 1 / inject_Z 3 + ((5 # 1000) + (1 # 1000000000000)))%Q.
Proof. apply (ratio_pct_accuracy 1 3); split; (reflexivity || discriminate). Defined.

(** ** The transit estimate *)

Lemma thirteen_percent :
  (0 <= rnd64 (13 # 100) /\ rnd64 (13 # 100) <= 131 # 1000)%Q.
Proof. split; vm_compute; discriminate. Qed.

(** X14: [int(commuters_lost * 0.13)] never raises, has the sign of the loss
    and is never larger in size: between 0 and the loss when commuters
    were lost, between the (negative) loss and 0 when they were gained. *)
Theorem transit_estimate_bounded (lost : Z) :
  exists t, transit_commuters_lost lost = Ok t /\
            (0 <= lost -> 0 <= t <= lost) /\
            (lost <= 0 -> lost <= t <= 0).
Proof.
  unfold transit_commuters_lost, of_int. cbn [fmul float_to_int].
  eexists. split; [reflexivity|].
  destruct thirteen_percent as [Hc0 Hc1]. set (c := rnd64 (13 # 100)) in *.
  set (a := rnd64 (inject_Z lost)).
  split; intros Hl.
  - assert (Hq : (0 <= inject_Z lost)%Q).
    { change 0%Q with (inject_Z 0). rewrite <- Zle_Qle. exact Hl. }
    destruct (rnd64_error_nonneg _ Hq) as [A1 B1]. fold a in A1, B1.
    assert (Ha0 : (0 <= a)%Q) by lra.
    assert (Hp0 : (0 <= a * c)%Q) by (apply Qmult_le_0_compat; assumption).
    assert (Hp1 : (a * c <= a * (131 # 1000))%Q).
    { rewrite !(Qmult_comm a). apply Qmult_le_compat_r; assumption. }
    destruct (rnd64_error_nonneg _ Hp0) as [A2 B2].
    set (p := rnd64 (a * c)) in *.
    assert (Hpp : (0 <= p)%Q) by lra.
    assert (Hb : Qle_bool 0 p = true) by (apply Qle_bool_iff; exact Hpp).
    rewrite Hb. split.
    + rewrite <- (Qfloor_Z 0). apply Qfloor_resp_le. exact Hpp.
    + rewrite Zle_Qle. apply Qle_trans with p; [apply Qfloor_le|]. lra.
  - assert (Hq : (inject_Z lost <= 0)%Q).
    { change 0%Q with (inject_Z 0). rewrite <- Zle_Qle. exact Hl. }
    destruct (rnd64_error_nonpos _ Hq) as [A1 B1]. fold a in A1, B1.
    assert (Ha0 : (a <= 0)%Q) by lra.
    assert (Hp0 : (a * c <= 0)%Q).
    { rewrite <- (Qmult_0_l c). apply Qmult_le_compat_r; assumption. }
    assert (Hp1 : (a * (131 # 1000) <= a * c)%Q).
    { assert (H : (0 <= (- a) * ((131 # 1000) - c))%Q)
        by (apply Qmult_le_0_compat; lra).
      assert (E : ((- a) * ((131 # 1000) - c) == a * c - a * (131 # 1000))%Q) by ring.
      rewrite E in H. lra. }
    destruct (rnd64_error_nonpos _ Hp0) as [A2 B2].
    set (p := rnd64 (a * c)) in *.
    assert (Hpp : (p <= 0)%Q) by lra.
    destruct (Qle_bool 0 p) eqn:Hb.
    + apply Qle_bool_iff in Hb.
      assert (Ep : (p == 0)%Q) by lra.
      rewrite (Qfloor_comp _ _ Ep). change (Qfloor 0) with 0. lia.
    + split.
      * rewrite Zle_Qle. apply Qle_trans with p; [lra|apply Qle_ceiling].
      * rewrite <- (Qceiling_Z 0). apply Qceiling_resp_le. exact Hpp.
Qed.

Lemma transit_estimate_bounded_witness :
  exists t, transit_commuters_lost 1000 = Ok t /\ 0 <= t <= 1000.
Proof.
  destruct (transit_estimate_bounded 1000) as (t & Ht & Hpos & _).
  exists t. split; [exact Ht|]. apply Hpos. discriminate.
Defined.

(** The estimate for a loss of a thousand commuters is 130. *)
Example transit_estimate_thousand : transit_commuters_lost 1000 = Ok 130.
Proof. vm_compute. reflexivity. Qed.
